(** * WriteBatch: the binary record protocol of db/write_batch.cc

    A shallow embedding of [WriteBatch] (Clear, Put, Delete, Iterate), of
    [WriteBatchInternal] (Count, SetCount, Sequence, SetSequence, InsertInto,
    SetContents, Append) and of the [MemTableInserter] handler, followed by
    the properties of the batch format.

    [rep_] is a [std::string]; it is modelled as a list of bytes.  Unsigned
    machine integers are modelled as [Z] with their wrap-around written
    out; the [int] results of [Count] are two's complement 32-bit values. *)

From Stdlib Require Import String ZArith List Lia Bool.
From coqutil Require Import Byte Word.LittleEndianList.
Import ListNotations.

Local Open Scope Z_scope.
Local Open Scope list_scope.

(** ** Machine integers *)

Definition wrap32 (z : Z) : Z := z mod 2 ^ 32.
Definition wrap64 (z : Z) : Z := z mod 2 ^ 64.

(** Conversion of a [uint32_t] to [int] and the (wrapping) [int] addition. *)
Definition to_int32 (z : Z) : Z :=
  let u := wrap32 z in if u <? 2 ^ 31 then u else u - 2 ^ 32.

Definition int_add (a b : Z) : Z := to_int32 (a + b).

(** ** util/coding.h *)

Module Coding.

(** Modelled from the spec: util/coding.cc is not part of the sources at
    hand.  The header fields are "little-endian fixed-width" ("8 bytes,
    little-endian unsigned" and "4 bytes, little-endian unsigned"). *)
Definition EncodeFixed32 (value : Z) : list byte := le_split 4 (wrap32 value).

(** Modelled from the spec: the reading of a "4 bytes, little-endian
    unsigned" field (util/coding.h is not part of the sources at hand). *)
Definition DecodeFixed32 (ptr : list byte) : Z := le_combine (firstn 4 ptr).

(** Modelled from the spec: the writing of an "8 bytes, little-endian
    unsigned" field (util/coding.cc is not part of the sources at hand). *)
Definition EncodeFixed64 (value : Z) : list byte := le_split 8 (wrap64 value).

(** Modelled from the spec: the reading of an "8 bytes, little-endian
    unsigned" field (util/coding.h is not part of the sources at hand). *)
Definition DecodeFixed64 (ptr : list byte) : Z := le_combine (firstn 8 ptr).

(** Modelled from the spec: util/coding.cc is not part of the sources at
    hand.  The "variable-length integer" primitive is LevelDB's varint:
    seven payload bits per byte, least significant group first, the top
    bit of a byte set when another byte follows.  [n] bounds the number of
    continuation bytes (4 for a [uint32_t], 9 for a [uint64_t]). *)
Fixpoint EncodeVarint (n : nat) (v : Z) : list byte :=
  match n with
  | O => [byte.of_Z v]
  | S n' =>
      if v <? 128 then [byte.of_Z v]
      else byte.of_Z (Z.lor (Z.land v 127) 128) :: EncodeVarint n' (Z.shiftr v 7)
  end.

(** Modelled from the spec: the varint32 of util/coding.cc (not part of
    the sources at hand), appended to [dst]; the argument is a
    [uint32_t]. *)
Definition PutVarint32 (dst : list byte) (v : Z) : list byte :=
  dst ++ EncodeVarint 4 (wrap32 v).

(** Modelled from the spec: the varint64 of util/coding.cc (not part of
    the sources at hand), appended to [dst]; the argument is a
    [uint64_t]. *)
Definition PutVarint64 (dst : list byte) (v : Z) : list byte :=
  dst ++ EncodeVarint 9 (wrap64 v).

(** Modelled from the spec: the decoding loop of the varint of
    util/coding.cc (not part of the sources at hand), which gives up
    ([None]) when the input ends inside the integer or when the integer
    needs more than [n] bytes.  [width] is the width of the result, into
    which every shifted group is truncated.  On success the rest of the
    input comes with the value. *)
Fixpoint GetVarintLoop (width : Z) (n : nat) (shift result : Z)
    (p : list byte) : option (Z * list byte) :=
  match n with
  | O => None
  | S n' =>
      match p with
      | [] => None
      | b :: p' =>
          let c := byte.unsigned b in
          if Z.testbit c 7 then
            GetVarintLoop width n' (shift + 7)
              (Z.lor result (Z.shiftl (Z.land c 127) shift mod 2 ^ width)) p'
          else
            Some (Z.lor result (Z.shiftl c shift mod 2 ^ width), p')
      end
  end.

(** Modelled from the spec: the reading of a varint32 of util/coding.cc
    (not part of the sources at hand): at most 5 bytes. *)
Definition GetVarint32 (input : list byte) : option (Z * list byte) :=
  GetVarintLoop 32 5 0 0 input.

(** Modelled from the spec: the reading of a varint64 of util/coding.cc
    (not part of the sources at hand): at most 10 bytes. *)
Definition GetVarint64 (input : list byte) : option (Z * list byte) :=
  GetVarintLoop 64 10 0 0 input.

(** Modelled from the spec: the writing of a varstring of util/coding.cc
    (not part of the sources at hand), "varint32 length + raw bytes;
    zero-length is valid". *)
Definition PutLengthPrefixedSlice (dst : list byte) (value : list byte)
    : list byte :=
  PutVarint32 dst (Z.of_nat (length value)) ++ value.

(** Modelled from the spec: the reading of a varstring of util/coding.cc
    (not part of the sources at hand), a varint32 length "followed by
    exactly len raw bytes"; it fails when fewer bytes are left. *)
Definition GetLengthPrefixedSlice (input : list byte)
    : option (list byte * list byte) :=
  match GetVarint32 input with
  | Some (len, input') =>
      if Z.of_nat (length input') <? len then None
      else Some (firstn (Z.to_nat len) input', skipn (Z.to_nat len) input')
  | None => None
  end.

End Coding.

Import Coding.

(** ** db/dbformat.h, leveldb/options.h: the types the batch works with *)

Definition Slice := list byte.
Definition SequenceNumber := Z.
Definition ExpiryTime := Z.

(** Modelled from the spec: db/dbformat.h is not part of the sources at
    hand.  A record is a "tagged variant" with four kinds; "the four tag
    values must be fixed and distinct for the lifetime of the format". *)
Inductive ValueType : Type :=
  | kTypeDeletion
  | kTypeValue
  | kTypeValueWriteTime
  | kTypeValueExplicitExpiry.

(** Modelled from the spec: the numbers of the four tags are declared in
    db/dbformat.h, which is not part of the sources at hand; they are
    "four stable, distinct byte values".  The values below are those of
    LevelDB's format; the proofs use that they are distinct bytes. *)
Definition ValueType_code (t : ValueType) : Z :=
  match t with
  | kTypeDeletion => 0
  | kTypeValue => 1
  | kTypeValueWriteTime => 2
  | kTypeValueExplicitExpiry => 3
  end.

(** The cast [(ValueType)input[0]] followed by the [switch]: a byte that is
    none of the four tags takes the [default] branch. *)
Definition tag_of_byte (c : byte) : option ValueType :=
  let z := byte.unsigned c in
  if z =? ValueType_code kTypeValue then Some kTypeValue
  else if z =? ValueType_code kTypeDeletion then Some kTypeDeletion
  else if z =? ValueType_code kTypeValueWriteTime then Some kTypeValueWriteTime
  else if z =? ValueType_code kTypeValueExplicitExpiry
       then Some kTypeValueExplicitExpiry
  else None.

Definition ValueType_eqb (a b : ValueType) : bool :=
  ValueType_code a =? ValueType_code b.

(** Modelled from the spec: "KeyMetaData: caller-supplied {type, expiry}
    passed to Put; default type is plain Value with no expiry". *)
Record KeyMetaData : Type := mkKeyMetaData {
  m_Type : ValueType;
  m_Expiry : ExpiryTime
}.

(** Modelled from the spec: what the default constructor of KeyMetaData
    (leveldb/options.h, not part of the sources at hand) leaves in
    [local_meta]: "default type is plain Value with no expiry". *)
Definition KeyMetaData_default : KeyMetaData :=
  {| m_Type := kTypeValue; m_Expiry := 0 |}.

Inductive Status : Type :=
  | OK
  | Corruption (msg : string).

(** ** WriteBatch *)

Record WriteBatch : Type := mkWriteBatch { rep_ : list byte }.

(** WriteBatch header has an 8-byte sequence number followed by a 4-byte
    count. *)
Definition kHeader : nat := 12.

(** A write of [bytes] through the pointer [&rep[off]].  The code only
    writes inside the header of a buffer that holds one. *)
Definition store (rep : list byte) (off : nat) (bytes : list byte) : list byte :=
  firstn off rep ++ bytes ++ skipn (off + length bytes) rep.

Definition Clear (b : WriteBatch) : WriteBatch :=
  {| rep_ := repeat Byte.x00 kHeader |}.

Definition Count (b : WriteBatch) : Z :=
  to_int32 (DecodeFixed32 (skipn 8 (rep_ b))).

Definition SetCount (b : WriteBatch) (n : Z) : WriteBatch :=
  {| rep_ := store (rep_ b) 8 (EncodeFixed32 n) |}.

Definition Sequence (b : WriteBatch) : SequenceNumber :=
  DecodeFixed64 (rep_ b).

Definition SetSequence (b : WriteBatch) (seq : SequenceNumber) : WriteBatch :=
  {| rep_ := store (rep_ b) 0 (EncodeFixed64 seq) |}.

Definition has_expiry_field (t : ValueType) : bool :=
  ValueType_eqb kTypeValueExplicitExpiry t || ValueType_eqb kTypeValueWriteTime t.

(** The expiry [Put] writes: [now] is what [GetTimeMinutes()] returns at
    the call. *)
Definition resolved_expiry (now : ExpiryTime) (m : KeyMetaData) : ExpiryTime :=
  if ValueType_eqb kTypeValueWriteTime (m_Type m) && (0 =? m_Expiry m)
  then now else m_Expiry m.

(** [meta] is a pointer that may be NULL.  The clock is "an external
    capability" (util/throttle.h is not part of the sources at hand): the
    call comes with [now], the value [GetTimeMinutes()] returns if it is
    asked. *)
Definition Put (now : ExpiryTime) (b : WriteBatch) (key value : Slice)
    (meta : option KeyMetaData) : WriteBatch :=
  let b := SetCount b (int_add (Count b) 1) in
  let local_meta :=
    match meta with Some m => m | None => KeyMetaData_default end in
  let rep := rep_ b ++ [byte.of_Z (ValueType_code (m_Type local_meta))] in
  let rep := PutLengthPrefixedSlice rep key in
  let rep :=
    if has_expiry_field (m_Type local_meta)
    then PutVarint64 rep (resolved_expiry now local_meta)
    else rep in
  {| rep_ := PutLengthPrefixedSlice rep value |}.

Definition Delete (b : WriteBatch) (key : Slice) : WriteBatch :=
  let b := SetCount b (int_add (Count b) 1) in
  let rep := rep_ b ++ [byte.of_Z (ValueType_code kTypeDeletion)] in
  {| rep_ := PutLengthPrefixedSlice rep key |}.

(** [WriteBatch::Handler]: the state of the handler object is threaded
    through the calls. *)
Class Handler (H : Type) : Type := {
  handler_Put : H -> Slice -> Slice -> ValueType -> ExpiryTime -> H;
  handler_Delete : H -> Slice -> H
}.

Section Iterate.
Context {H : Type} `{Handler H}.

(** The [switch] of the loop body, after the tag byte has been removed:
    either a [return] with a status, or the handler after its call with
    what is left of the input. *)
Definition IterateRecord (handler : H) (c : byte) (input : list byte)
    : Status + (H * list byte) :=
  match tag_of_byte c with
  | Some kTypeValue =>
      match GetLengthPrefixedSlice input with
      | Some (key, input) =>
          match GetLengthPrefixedSlice input with
          | Some (value, input) =>
              inr (handler_Put handler key value kTypeValue 0, input)
          | None => inl (Corruption "bad WriteBatch Put")
          end
      | None => inl (Corruption "bad WriteBatch Put")
      end
  | Some kTypeDeletion =>
      match GetLengthPrefixedSlice input with
      | Some (key, input) => inr (handler_Delete handler key, input)
      | None => inl (Corruption "bad WriteBatch Delete")
      end
  | Some (kTypeValueWriteTime as tag)
  | Some (kTypeValueExplicitExpiry as tag) =>
      match GetLengthPrefixedSlice input with
      | Some (key, input) =>
          match GetVarint64 input with
          | Some (expiry, input) =>
              match GetLengthPrefixedSlice input with
              | Some (value, input) =>
                  inr (handler_Put handler key value tag expiry, input)
              | None => inl (Corruption "bad WriteBatch Expiry")
              end
          | None => inl (Corruption "bad WriteBatch Expiry")
          end
      | None => inl (Corruption "bad WriteBatch Expiry")
      end
  | None => inl (Corruption "unknown WriteBatch tag")
  end.

(** The [while (!input.empty())] loop and the count check after it.
    [None] stands for a loop that is still running when the fuel is
    spent. *)
Fixpoint IterateLoop (fuel : nat) (count : Z) (handler : H)
    (input : list byte) (found : Z) : option (Status * H) :=
  match input with
  | [] =>
      if negb (found =? count)
      then Some (Corruption "WriteBatch has wrong count", handler)
      else Some (OK, handler)
  | c :: input =>
      match fuel with
      | O => None
      | S fuel =>
          let found := int_add found 1 in
          match IterateRecord handler c input with
          | inl s => Some (s, handler)
          | inr (handler, input) => IterateLoop fuel count handler input found
          end
      end
  end.

Definition Iterate (b : WriteBatch) (handler : H) : option (Status * H) :=
  let input := rep_ b in
  if (length input <? kHeader)%nat
  then Some (Corruption "malformed WriteBatch (too small)", handler)
  else
    let input := skipn kHeader input in
    IterateLoop (length input) (Count b) handler input 0.
End Iterate.

(** ** Iterate on the memory of the buffer

    The same code once more, with the accesses to memory written out.  A
    [Slice] is a pointer into the buffer and a size; a pointer is the
    offset of a byte of [rep_].  A read of the byte at an offset that is
    not below the size of the buffer has no value ([None]), and neither
    has an operation of [Slice] whose assertion fails. *)

(** Modelled from the spec: leveldb/slice.h is not part of the sources at
    hand.  The slices are "non-owning views into its buffer": [data_] and
    [size_]. *)
Record SliceAt : Type := mkSliceAt { data_ : nat; size_ : nat }.

(** The byte of the buffer at an offset, if the buffer has one there. *)
Definition read_byte (rep : list byte) (i : nat) : option byte :=
  nth_error rep i.

(** The [n] bytes from the offset [p] on, read one by one. *)
Fixpoint read_bytes (rep : list byte) (p n : nat) : option (list byte) :=
  match n with
  | O => Some []
  | S n' =>
      match read_byte rep p with
      | Some b =>
          match read_bytes rep (S p) n' with
          | Some l => Some (b :: l)
          | None => None
          end
      | None => None
      end
  end.

(** Modelled from the spec: [Slice::operator[]] of leveldb/slice.h (not
    part of the sources at hand), with its [assert(n < size())]. *)
Definition SliceAt_index (rep : list byte) (s : SliceAt) (n : nat)
    : option byte :=
  if (n <? size_ s)%nat then read_byte rep (data_ s + n) else None.

(** Modelled from the spec: [Slice::remove_prefix] of leveldb/slice.h (not
    part of the sources at hand), with its [assert(n <= size())]. *)
Definition SliceAt_remove_prefix (s : SliceAt) (n : nat) : option SliceAt :=
  if (n <=? size_ s)%nat
  then Some {| data_ := data_ s + n; size_ := size_ s - n |}
  else None.

(** What a reader of the whole slice, such as a handler, reads. *)
Definition SliceAt_bytes (rep : list byte) (s : SliceAt) : option (list byte) :=
  read_bytes rep (data_ s) (size_ s).

(** Modelled from the spec: the decoding loop of the varint of
    util/coding.cc (not part of the sources at hand) between the pointers
    [p] and [limit]: a byte is read only when [p < limit].  The outer
    [option] is the memory, the inner one the success of the decoding,
    which comes with the pointer after the integer. *)
Fixpoint GetVarintLoop_at (rep : list byte) (width : Z) (n : nat)
    (shift result : Z) (p limit : nat) : option (option (Z * nat)) :=
  match n with
  | O => Some None
  | S n' =>
      if (p <? limit)%nat then
        match read_byte rep p with
        | Some b =>
            let c := byte.unsigned b in
            if Z.testbit c 7 then
              GetVarintLoop_at rep width n' (shift + 7)
                (Z.lor result (Z.shiftl (Z.land c 127) shift mod 2 ^ width))
                (S p) limit
            else
              Some (Some (Z.lor result (Z.shiftl c shift mod 2 ^ width), S p))
        | None => None
        end
      else Some None
  end.

(** Modelled from the spec: GetVarint32 and GetVarint64 of util/coding.cc
    (not part of the sources at hand) on a slice: on success the slice
    becomes [Slice(q, limit - q)]. *)
Definition GetVarint_at (rep : list byte) (width : Z) (n : nat)
    (input : SliceAt) : option (option (Z * SliceAt)) :=
  let p := data_ input in
  let limit := (p + size_ input)%nat in
  match GetVarintLoop_at rep width n 0 0 p limit with
  | Some (Some (v, q)) =>
      Some (Some (v, {| data_ := q; size_ := limit - q |}))
  | Some None => Some None
  | None => None
  end.

(** Modelled from the spec: GetVarint32 of util/coding.cc (not part of the
    sources at hand) on a slice. *)
Definition GetVarint32_at (rep : list byte) (input : SliceAt)
    : option (option (Z * SliceAt)) :=
  GetVarint_at rep 32 5 input.

(** Modelled from the spec: GetVarint64 of util/coding.cc (not part of the
    sources at hand) on a slice. *)
Definition GetVarint64_at (rep : list byte) (input : SliceAt)
    : option (option (Z * SliceAt)) :=
  GetVarint_at rep 64 10 input.

(** Modelled from the spec: GetLengthPrefixedSlice of util/coding.cc (not
    part of the sources at hand) on a slice: the result is
    [Slice(input->data(), len)] and the input loses [len] bytes, once
    [input->size() >= len] has been checked. *)
Definition GetLengthPrefixedSlice_at (rep : list byte) (input : SliceAt)
    : option (option (SliceAt * SliceAt)) :=
  match GetVarint32_at rep input with
  | Some (Some (len, input)) =>
      if Z.of_nat (size_ input) <? len then Some None
      else
        match SliceAt_remove_prefix input (Z.to_nat len) with
        | Some rest =>
            Some (Some ({| data_ := data_ input; size_ := Z.to_nat len |}, rest))
        | None => None
        end
  | Some None => Some None
  | None => None
  end.

(** [Count] as a read of the four bytes at [rep_.data() + 8]. *)
Definition Count_at (rep : list byte) : option Z :=
  match read_bytes rep 8 4 with
  | Some l => Some (to_int32 (le_combine l))
  | None => None
  end.

(** How a run ends: with a result, on an access outside the buffer, or
    with the loop still running when the fuel is spent. *)
Inductive Run (A : Type) : Type :=
  | Done (a : A)
  | OutOfBounds
  | OutOfFuel.

Arguments Done {A} a.
Arguments OutOfBounds {A}.
Arguments OutOfFuel {A}.

Section IterateAt.
Context {H : Type} `{Handler H}.

(** The call of the handler's Put, which reads the two slices. *)
Definition handler_Put_at (rep : list byte) (handler : H)
    (key value : SliceAt) (type : ValueType) (expiry : ExpiryTime)
    : option H :=
  match SliceAt_bytes rep key, SliceAt_bytes rep value with
  | Some k, Some v => Some (handler_Put handler k v type expiry)
  | _, _ => None
  end.

(** The call of the handler's Delete, which reads the slice. *)
Definition handler_Delete_at (rep : list byte) (handler : H) (key : SliceAt)
    : option H :=
  match SliceAt_bytes rep key with
  | Some k => Some (handler_Delete handler k)
  | None => None
  end.

(** The [switch] of the loop body on slices. *)
Definition IterateRecord_at (rep : list byte) (handler : H) (c : byte)
    (input : SliceAt) : option (Status + (H * SliceAt)) :=
  match tag_of_byte c with
  | Some kTypeValue =>
      match GetLengthPrefixedSlice_at rep input with
      | Some (Some (key, input)) =>
          match GetLengthPrefixedSlice_at rep input with
          | Some (Some (value, input)) =>
              match handler_Put_at rep handler key value kTypeValue 0 with
              | Some handler => Some (inr (handler, input))
              | None => None
              end
          | Some None => Some (inl (Corruption "bad WriteBatch Put"))
          | None => None
          end
      | Some None => Some (inl (Corruption "bad WriteBatch Put"))
      | None => None
      end
  | Some kTypeDeletion =>
      match GetLengthPrefixedSlice_at rep input with
      | Some (Some (key, input)) =>
          match handler_Delete_at rep handler key with
          | Some handler => Some (inr (handler, input))
          | None => None
          end
      | Some None => Some (inl (Corruption "bad WriteBatch Delete"))
      | None => None
      end
  | Some (kTypeValueWriteTime as tag)
  | Some (kTypeValueExplicitExpiry as tag) =>
      match GetLengthPrefixedSlice_at rep input with
      | Some (Some (key, input)) =>
          match GetVarint64_at rep input with
          | Some (Some (expiry, input)) =>
              match GetLengthPrefixedSlice_at rep input with
              | Some (Some (value, input)) =>
                  match handler_Put_at rep handler key value tag expiry with
                  | Some handler => Some (inr (handler, input))
                  | None => None
                  end
              | Some None => Some (inl (Corruption "bad WriteBatch Expiry"))
              | None => None
              end
          | Some None => Some (inl (Corruption "bad WriteBatch Expiry"))
          | None => None
          end
      | Some None => Some (inl (Corruption "bad WriteBatch Expiry"))
      | None => None
      end
  | None => Some (inl (Corruption "unknown WriteBatch tag"))
  end.

(** The loop on slices: [input.empty()], [input[0]],
    [input.remove_prefix(1)], the [switch], and the read of the count
    after the loop. *)
Fixpoint IterateLoop_at (fuel : nat) (rep : list byte) (handler : H)
    (input : SliceAt) (found : Z) : Run (Status * H) :=
  if (size_ input =? 0)%nat then
    match Count_at rep with
    | Some count =>
        if negb (found =? count)
        then Done (Corruption "WriteBatch has wrong count", handler)
        else Done (OK, handler)
    | None => OutOfBounds
    end
  else
    match fuel with
    | O => OutOfFuel
    | S fuel =>
        let found := int_add found 1 in
        match SliceAt_index rep input 0 with
        | Some c =>
            match SliceAt_remove_prefix input 1 with
            | Some input =>
                match IterateRecord_at rep handler c input with
                | Some (inl s) => Done (s, handler)
                | Some (inr (handler, input)) =>
                    IterateLoop_at fuel rep handler input found
                | None => OutOfBounds
                end
            | None => OutOfBounds
            end
        | None => OutOfBounds
        end
    end.

Definition Iterate_at (b : WriteBatch) (handler : H) : Run (Status * H) :=
  let input := {| data_ := 0; size_ := length (rep_ b) |} in
  if (size_ input <? kHeader)%nat
  then Done (Corruption "malformed WriteBatch (too small)", handler)
  else
    match SliceAt_remove_prefix input kHeader with
    | Some input => IterateLoop_at (size_ input) (rep_ b) handler input 0
    | None => OutOfBounds
    end.
End IterateAt.

(** ** The index and the handler that fills it *)

(** Modelled from the spec: db/memtable.cc is not part of the sources at
    hand.  The index is "an index with add(sequence, type, key, value,
    expiry) - no return value, assumed to always succeed"; it is modelled
    as the list of the insertions made, oldest first. *)
Record MemTableEntry : Type := mkEntry {
  entry_sequence : SequenceNumber;
  entry_type : ValueType;
  entry_key : Slice;
  entry_value : Slice;
  entry_expiry : ExpiryTime
}.

Definition MemTable := list MemTableEntry.

Definition MemTable_Add (mem : MemTable) (s : SequenceNumber) (t : ValueType)
    (key value : Slice) (expiry : ExpiryTime) : MemTable :=
  mem ++ [mkEntry s t key value expiry].

(** Modelled from the spec: leveldb/expiry.h is not part of the sources at
    hand.  The expiry module is "an optional expiry-policy capability with
    a single operation that may rewrite (type, expiry) given (key, value)
    before insertion". *)
Record ExpiryModule : Type := mkExpiryModule {
  MemTableInserterCallback :
    Slice -> Slice -> ValueType -> ExpiryTime -> ValueType * ExpiryTime
}.

Record Options : Type := mkOptions { expiry_module : option ExpiryModule }.

Record MemTableInserter : Type := mkInserter {
  sequence_ : SequenceNumber;
  mem_ : MemTable;
  options_ : option Options
}.

Definition MemTableInserter_Put (i : MemTableInserter) (key value : Slice)
    (type : ValueType) (expiry : ExpiryTime) : MemTableInserter :=
  let '(type_use, expiry_use) :=
    match options_ i with
    | Some o =>
        match expiry_module o with
        | Some m => MemTableInserterCallback m key value type expiry
        | None => (type, expiry)
        end
    | None => (type, expiry)
    end in
  {| sequence_ := wrap64 (sequence_ i + 1);
     mem_ := MemTable_Add (mem_ i) (sequence_ i) type_use key value expiry_use;
     options_ := options_ i |}.

Definition MemTableInserter_Delete (i : MemTableInserter) (key : Slice)
    : MemTableInserter :=
  {| sequence_ := wrap64 (sequence_ i + 1);
     mem_ := MemTable_Add (mem_ i) (sequence_ i) kTypeDeletion key [] 0;
     options_ := options_ i |}.

#[export] Instance MemTableInserter_Handler : Handler MemTableInserter := {
  handler_Put := MemTableInserter_Put;
  handler_Delete := MemTableInserter_Delete
}.

Definition InsertInto (b : WriteBatch) (memtable : MemTable)
    (options : option Options) : option (Status * MemTable) :=
  let inserter :=
    {| sequence_ := Sequence b; mem_ := memtable; options_ := options |} in
  match Iterate b inserter with
  | Some (s, inserter) => Some (s, mem_ inserter)
  | None => None
  end.

(** [assert(contents.size() >= kHeader)] is the caller's obligation. *)
Definition SetContents (b : WriteBatch) (contents : Slice) : WriteBatch :=
  {| rep_ := contents |}.

(** [assert(src->rep_.size() >= kHeader)] is the caller's obligation. *)
Definition Append (dst src : WriteBatch) : WriteBatch :=
  let dst := SetCount dst (int_add (Count dst) (Count src)) in
  {| rep_ := rep_ dst ++ skipn kHeader (rep_ src) |}.

(** ** A handler that records its calls *)

Inductive Event : Type :=
  | EvPut (key value : Slice) (type : ValueType) (expiry : ExpiryTime)
  | EvDelete (key : Slice).

#[export] Instance Recorder : Handler (list Event) := {
  handler_Put h key value type expiry := h ++ [EvPut key value type expiry];
  handler_Delete h key := h ++ [EvDelete key]
}.

(** What a call recorded by [Recorder] does to any other handler. *)
Definition replay_event {H : Type} `{Handler H} (h : H) (e : Event) : H :=
  match e with
  | EvPut key value type expiry => handler_Put h key value type expiry
  | EvDelete key => handler_Delete h key
  end.

(** ** Sequences of calls made by a client *)

(** A call of [Put] comes with the reading of the clock at that call. *)
Inductive Call : Type :=
  | CallPut (now : ExpiryTime) (key value : Slice) (meta : option KeyMetaData)
  | CallDelete (key : Slice).

Definition do_call (b : WriteBatch) (c : Call) : WriteBatch :=
  match c with
  | CallPut now key value meta => Put now b key value meta
  | CallDelete key => Delete b key
  end.

Definition do_calls (b : WriteBatch) (cs : list Call) : WriteBatch :=
  fold_left do_call cs b.

Definition fresh : WriteBatch := Clear (mkWriteBatch []).

(** The end-to-end scenario: put a 1, put b 2, delete a. *)
Definition scenario : WriteBatch :=
  do_calls fresh
    [CallPut 0 [Byte.x61] [Byte.x31] None;
     CallPut 0 [Byte.x62] [Byte.x32] None;
     CallDelete [Byte.x61]].

(** * The vocabulary of the statements *)

(** ** Ranges and well-formed buffers *)

(** A byte of a varint after which another byte follows. *)
Definition continues (b : byte) : Prop := Z.testbit (byte.unsigned b) 7 = true.

(** A string whose length fits the varint32 that precedes it. *)
Definition fits32 (s : Slice) : Prop := Z.of_nat (length s) < 2 ^ 32.

(** The invariant of [rep_]: "length >= 12 at all times". *)
Definition has_header (b : WriteBatch) : Prop := (kHeader <= length (rep_ b))%nat.

(** ** Slices and the bytes they show *)

(** The bytes a slice shows. *)
Definition view (rep : list byte) (s : SliceAt) : list byte :=
  firstn (size_ s) (skipn (data_ s) rep).

(** A slice that lies in the buffer and shows the bytes [l]. *)
Definition slice_is (rep : list byte) (s : SliceAt) (l : list byte) : Prop :=
  (data_ s + size_ s <= length rep)%nat /\ view rep s = l.

(** ** What a call writes and how it is replayed *)

(** The [local_meta] of a Put. *)
Definition call_meta (meta : option KeyMetaData) : KeyMetaData :=
  match meta with Some m => m | None => KeyMetaData_default end.

(** The bytes of the record a call appends: the tag byte and what follows
    it. *)
Definition call_tag (c : Call) : byte :=
  match c with
  | CallPut now key value meta =>
      byte.of_Z (ValueType_code (m_Type (call_meta meta)))
  | CallDelete key => byte.of_Z (ValueType_code kTypeDeletion)
  end.

Definition call_payload (c : Call) : list byte :=
  match c with
  | CallPut now key value meta =>
      let m := call_meta meta in
      PutLengthPrefixedSlice [] key
      ++ (if has_expiry_field (m_Type m)
          then PutVarint64 [] (resolved_expiry now m) else [])
      ++ PutLengthPrefixedSlice [] value
  | CallDelete key => PutLengthPrefixedSlice [] key
  end.

Definition call_record (c : Call) : list byte := call_tag c :: call_payload c.

Definition calls_records (cs : list Call) : list byte :=
  concat (map call_record cs).

(** The calls a batch makes on a handler, as a list. *)
Definition Replay (b : WriteBatch) : option (Status * list Event) :=
  Iterate b ([] : list Event).

(** The values of a [uint64_t]. *)
Definition in_u64 (z : Z) : Prop := 0 <= z < 2 ^ 64.

(** The expiry a put is replayed with: none is encoded for the plain
    Value type, the clock's reading stands in for a zero write-time
    expiry, and the caller's expiry is kept otherwise. *)
Definition replayed_expiry (now : ExpiryTime) (m : KeyMetaData) : ExpiryTime :=
  match m_Type m with
  | kTypeValueWriteTime => if m_Expiry m =? 0 then now else m_Expiry m
  | kTypeValueExplicitExpiry => m_Expiry m
  | kTypeValue | kTypeDeletion => 0
  end.

(** The call Iterate makes for the record of a call. *)
Definition call_event (c : Call) : Event :=
  match c with
  | CallPut now key value meta =>
      let m := call_meta meta in
      EvPut key value (m_Type m) (replayed_expiry now m)
  | CallDelete key => EvDelete key
  end.

(** Calls whose record is decoded as written: a [Put] of a type that
    bears a value, lengths that fit the varint32 prefix, and [uint64_t]
    expiry and clock values. *)
Definition call_ok (c : Call) : Prop :=
  match c with
  | CallPut now key value meta =>
      m_Type (call_meta meta) <> kTypeDeletion /\ fits32 key /\ fits32 value
      /\ in_u64 now /\ in_u64 (m_Expiry (call_meta meta))
  | CallDelete key => fits32 key
  end.

(** The shape of the calls Iterate makes: never a put of the Deletion
    type, and expiry 0 for a put of the plain Value type. *)
Definition event_of_Iterate (e : Event) : Prop :=
  match e with
  | EvPut _ _ t x => t <> kTypeDeletion /\ (t = kTypeValue -> x = 0)
  | EvDelete _ => True
  end.

(** The handler call the claim expects for a call: the arguments as the
    caller gave them. *)
Definition call_as_made (c : Call) : Event :=
  match c with
  | CallPut now key value meta =>
      EvPut key value (m_Type (call_meta meta)) (m_Expiry (call_meta meta))
  | CallDelete key => EvDelete key
  end.

(** ** Batches used as examples *)

(** At clock reading 7: a put of write-time-expiry type with expiry 0, a
    put of the plain Value type with expiry 5, a put of explicit-expiry
    type with expiry 0, and a delete. *)
Definition calls_with_expiry : list Call :=
  [CallPut 7 [Byte.x61] [Byte.x31] (Some (mkKeyMetaData kTypeValueWriteTime 0));
   CallPut 7 [Byte.x62] [Byte.x32] (Some (mkKeyMetaData kTypeValue 5));
   CallPut 7 [Byte.x63] [Byte.x33] (Some (mkKeyMetaData kTypeValueExplicitExpiry 0));
   CallDelete [Byte.x61]].

(** The scenario's records followed by a byte that is no tag. *)
Definition scenario_then_garbage : WriteBatch :=
  mkWriteBatch (rep_ scenario ++ [Byte.xff]).

(** ** Batches as objects

    Batches are objects named by pointers; [Append] writes through [dst]
    and reads through [src]. *)
Definition Heap := nat -> WriteBatch.

Definition heap_set (m : Heap) (p : nat) (b : WriteBatch) : Heap :=
  fun q => if Nat.eqb q p then b else m q.

Definition Append_at (m : Heap) (dst src : nat) : Heap :=
  heap_set m dst (Append (m dst) (m src)).

(** The scenario with sequence 100 at pointer 0, a batch of one delete at
    the other pointers. *)
Definition two_batches : Heap :=
  fun p => if Nat.eqb p 0 then SetSequence scenario 100
           else do_calls fresh [CallDelete [Byte.x62]].

(** ** The entries of the index

    What the expiry module, when there is one, makes of a put. *)
Definition expiry_policy (options : option Options) (key value : Slice)
    (type : ValueType) (expiry : ExpiryTime) : ValueType * ExpiryTime :=
  match options with
  | Some o =>
      match expiry_module o with
      | Some m => MemTableInserterCallback m key value type expiry
      | None => (type, expiry)
      end
  | None => (type, expiry)
  end.

(** The entry added for a call of the handler when [sequence_] is [s]. *)
Definition entry_of_event (options : option Options) (s : SequenceNumber)
    (e : Event) : MemTableEntry :=
  match e with
  | EvPut key value type expiry =>
      let '(type_use, expiry_use) := expiry_policy options key value type expiry in
      mkEntry s type_use key value expiry_use
  | EvDelete key => mkEntry s kTypeDeletion key [] 0
  end.

(** The entries added for a list of calls, numbered from [s] on. *)
Fixpoint number_from (options : option Options) (s : SequenceNumber)
    (evs : list Event) : list MemTableEntry :=
  match evs with
  | [] => []
  | e :: evs => entry_of_event options s e :: number_from options (wrap64 (s + 1)) evs
  end.

(** ** Record boundaries

    The offsets in the buffer at which a record written by the calls
    starts or ends, from [off] on. *)
Fixpoint record_boundaries (off : nat) (cs : list Call) : list nat :=
  off ::
  match cs with
  | [] => []
  | c :: cs => record_boundaries (off + length (call_record c)) cs
  end.

(** A put of the key [a] and the empty value, of the Deletion type. *)
Definition put_of_deletion : list Call :=
  [CallPut 0 [Byte.x61] [] (Some (mkKeyMetaData kTypeDeletion 0))].

(** ** The errors of a record

    The message of the [return] in the branch of the [switch] that a tag
    byte selects. *)
Definition tag_error (c : byte) : string :=
  match tag_of_byte c with
  | Some kTypeValue => "bad WriteBatch Put"
  | Some kTypeDeletion => "bad WriteBatch Delete"
  | Some kTypeValueWriteTime | Some kTypeValueExplicitExpiry =>
      "bad WriteBatch Expiry"
  | None => "unknown WriteBatch tag"
  end.

(** The message for a record of a call that is cut short. *)
Definition call_error (c : Call) : string :=
  match c with
  | CallPut now key value meta =>
      match m_Type (call_meta meta) with
      | kTypeValue => "bad WriteBatch Put"
      | kTypeDeletion => "bad WriteBatch Delete"
      | kTypeValueWriteTime | kTypeValueExplicitExpiry =>
          "bad WriteBatch Expiry"
      end
  | CallDelete key => "bad WriteBatch Delete"
  end.

(** * Properties *)

(** ** The model at work *)

Example varint_300 : EncodeVarint 4 300 = [Byte.xac; Byte.x02].
Proof. vm_compute. reflexivity. Qed.

Example get_varint_300 :
  GetVarint32 [Byte.xac; Byte.x02; Byte.x07] = Some (300, [Byte.x07]).
Proof. vm_compute. reflexivity. Qed.

Example scenario_count : Count scenario = 3.
Proof. vm_compute. reflexivity. Qed.

Example scenario_on_slices :
  Iterate_at scenario ([] : list Event) =
  Done (OK, [EvPut [Byte.x61] [Byte.x31] kTypeValue 0;
             EvPut [Byte.x62] [Byte.x32] kTypeValue 0;
             EvDelete [Byte.x61]]).
Proof. vm_compute. reflexivity. Qed.

Example scenario_insert :
  InsertInto (SetSequence scenario 100) [] None =
  Some (OK, [mkEntry 100 kTypeValue [Byte.x61] [Byte.x31] 0;
             mkEntry 101 kTypeValue [Byte.x62] [Byte.x32] 0;
             mkEntry 102 kTypeDeletion [Byte.x61] [] 0]).
Proof. vm_compute. reflexivity. Qed.

(** ** Bits and bytes *)

Lemma lor_disjoint (r x s : Z) :
  0 <= s -> 0 <= r < 2 ^ s -> Z.lor r (x * 2 ^ s) = r + x * 2 ^ s.
Proof.
  intros Hs Hr.
  rewrite <- Z.lxor_lor, <- Z.add_nocarry_lxor; trivial.
  all: rewrite <- Z.shiftl_mul_pow2 by lia.
  all: rewrite <- (Z.mod_small r (2 ^ s)) by lia.
  all: rewrite <- Z.land_ones by lia.
  all: apply Z.bits_inj'; intros i Hi.
  all: rewrite !Z.land_spec, Z.shiftl_spec, Z.bits_0 by lia.
  all: destruct (Z.ltb_spec i s).
  all: try (rewrite (Z.testbit_neg_r x) by lia; apply andb_false_r).
  all: rewrite Z.ones_spec_high by lia.
  all: rewrite andb_false_r; reflexivity.
Qed.

Lemma testbit7 (z : Z) : 0 <= z < 256 -> Z.testbit z 7 = (128 <=? z).
Proof.
  intros Hz.
  pose proof (Z.testbit_spec' z 7 ltac:(lia)) as E.
  change (2 ^ 7) with 128 in E.
  destruct (Z.leb_spec 128 z).
  - assert (z / 128 = 1) as Q
      by (symmetry; apply Z.div_unique with (r := z - 128); lia).
    rewrite Q in E. destruct (Z.testbit z 7); trivial; discriminate.
  - rewrite Z.div_small in E by lia.
    destruct (Z.testbit z 7); trivial; discriminate.
Qed.

Lemma land127 (z : Z) : Z.land z 127 = z mod 128.
Proof. exact (Z.land_ones z 7 ltac:(lia)). Qed.

Lemma shiftr7 (z : Z) : Z.shiftr z 7 = z / 128.
Proof. exact (Z.shiftr_div_pow2 z 7 ltac:(lia)). Qed.

Lemma continuation_byte (v : Z) :
  byte.unsigned (byte.of_Z (Z.lor (Z.land v 127) 128)) = v mod 128 + 128.
Proof.
  rewrite byte.unsigned_of_Z, land127. unfold byte.wrap.
  pose proof (Z.mod_pos_bound v 128 ltac:(lia)).
  change 128 with (1 * 2 ^ 7) at 2.
  rewrite lor_disjoint by (change (2 ^ 7) with 128; lia).
  change (1 * 2 ^ 7) with 128. apply Z.mod_small. change (2 ^ 8) with 256. lia.
Qed.

Lemma final_byte (v : Z) :
  0 <= v < 128 -> byte.unsigned (byte.of_Z v) = v.
Proof.
  intros Hv. rewrite byte.unsigned_of_Z. unfold byte.wrap.
  apply Z.mod_small. change (2 ^ 8) with 256. lia.
Qed.

(** ** Varints: what is written is read back *)

Lemma GetVarintLoop_last (width : Z) (m : nat) (shift result v : Z)
    (rest : list byte) :
  0 <= shift -> 0 <= result < 2 ^ shift -> 0 <= v < 128 ->
  result + v * 2 ^ shift < 2 ^ width ->
  GetVarintLoop width (S m) shift result (byte.of_Z v :: rest) =
  Some (result + v * 2 ^ shift, rest).
Proof.
  intros Hs Hr Hv Hw. cbn [GetVarintLoop]. cbv zeta.
  rewrite final_byte by trivial.
  rewrite testbit7 by lia.
  destruct (Z.leb_spec 128 v); [lia|].
  rewrite Z.shiftl_mul_pow2 by trivial.
  rewrite Z.mod_small by nia.
  rewrite lor_disjoint by trivial. reflexivity.
Qed.

Lemma GetVarintLoop_Encode (width : Z) (n : nat) :
  forall (m : nat) (shift result v : Z) (rest : list byte),
  (n < m)%nat -> 0 <= shift -> 0 <= result < 2 ^ shift ->
  0 <= v < 2 ^ (7 * Z.of_nat (S n)) ->
  result + v * 2 ^ shift < 2 ^ width ->
  GetVarintLoop width m shift result (EncodeVarint n v ++ rest) =
  Some (result + v * 2 ^ shift, rest).
Proof.
  induction n as [|n IH]; intros m shift result v rest Hm Hs Hr Hv Hw;
    destruct m as [|m]; try lia.
  - apply GetVarintLoop_last; trivial.
  - cbn [EncodeVarint]. destruct (Z.ltb_spec v 128) as [Hlt|Hge].
    + apply GetVarintLoop_last; trivial. lia.
    + cbn [app GetVarintLoop]. cbv zeta.
      rewrite continuation_byte.
      pose proof (Z.mod_pos_bound v 128 ltac:(lia)) as Hmod.
      pose proof (Z.div_mod v 128 ltac:(lia)) as Hdm.
      assert (0 < 2 ^ shift) as Hp by (apply Z.pow_pos_nonneg; lia).
      assert (2 ^ (shift + 7) = 2 ^ shift * 128) as Hp7
        by (rewrite Z.pow_add_r by lia; reflexivity).
      rewrite testbit7 by lia.
      destruct (Z.leb_spec 128 (v mod 128 + 128)); [|lia].
      rewrite land127.
      replace ((v mod 128 + 128) mod 128) with (v mod 128)
        by (rewrite <- (Z.mul_1_l 128) at 3;
            rewrite Z.mod_add, Z.mod_mod by lia; trivial).
      rewrite Z.shiftl_mul_pow2 by trivial.
      assert (0 <= v / 128) as Hq by (apply Z.div_pos; lia).
      rewrite Z.mod_small by nia.
      rewrite lor_disjoint by trivial.
      rewrite shiftr7.
      assert (result + v mod 128 * 2 ^ shift + v / 128 * 2 ^ (shift + 7) =
              result + v * 2 ^ shift) as E by (rewrite Hp7; nia).
      assert (0 <= result + v mod 128 * 2 ^ shift < 2 ^ (shift + 7)) as A1
        by (rewrite Hp7; nia).
      assert (0 <= v / 128 < 2 ^ (7 * Z.of_nat (S n))) as A2.
      { split; [lia|]. apply Z.div_lt_upper_bound; [lia|].
        replace (7 * Z.of_nat (S (S n))) with (7 + 7 * Z.of_nat (S n)) in Hv
          by lia.
        rewrite Z.pow_add_r in Hv by lia. change (2 ^ 7) with 128 in Hv. lia. }
      rewrite IH by (trivial; lia).
      rewrite E. reflexivity.
Qed.

Lemma GetVarint32_Put (v : Z) (rest : list byte) :
  0 <= v < 2 ^ 32 ->
  GetVarint32 (PutVarint32 [] v ++ rest) = Some (v, rest).
Proof.
  intros Hv. unfold GetVarint32, PutVarint32, wrap32.
  rewrite Z.mod_small by trivial. cbn [app].
  rewrite GetVarintLoop_Encode by (simpl; lia).
  f_equal. f_equal. lia.
Qed.

Lemma GetVarint64_Put (v : Z) (rest : list byte) :
  0 <= v < 2 ^ 64 ->
  GetVarint64 (PutVarint64 [] v ++ rest) = Some (v, rest).
Proof.
  intros Hv. unfold GetVarint64, PutVarint64, wrap64.
  rewrite Z.mod_small by trivial. cbn [app].
  rewrite GetVarintLoop_Encode by (simpl; lia).
  f_equal. f_equal. lia.
Qed.

(** ** Varints: a truncated integer is refused, and what is read is in
    the input *)

Lemma GetVarintLoop_continues (width : Z) (p : list byte) :
  Forall continues p ->
  forall (n : nat) (shift result : Z), GetVarintLoop width n shift result p = None.
Proof.
  induction 1 as [|b p Hb _ IH]; intros [|n] shift result; trivial.
  cbn [GetVarintLoop]. cbv zeta. rewrite Hb. apply IH.
Qed.

Lemma EncodeVarint_firstn (n : nat) :
  forall (v : Z) (k : nat),
  0 <= v < 2 ^ (7 * Z.of_nat (S n)) ->
  (k < length (EncodeVarint n v))%nat ->
  Forall continues (firstn k (EncodeVarint n v)).
Proof.
  induction n as [|n IH]; intros v k Hv Hk.
  - cbn in Hk. replace k with O by lia. constructor.
  - cbn [EncodeVarint] in *. destruct (Z.ltb_spec v 128).
    + cbn in Hk. replace k with O by lia. constructor.
    + destruct k as [|k]; cbn [firstn]; constructor.
      * unfold continues. rewrite continuation_byte.
        pose proof (Z.mod_pos_bound v 128 ltac:(lia)).
        rewrite testbit7 by lia. apply Z.leb_le. lia.
      * apply IH; [|cbn [length] in Hk; lia].
        rewrite shiftr7. split; [apply Z.div_pos; lia|].
        apply Z.div_lt_upper_bound; [lia|].
        replace (7 * Z.of_nat (S (S n))) with (7 + 7 * Z.of_nat (S n)) in Hv
          by lia.
        rewrite Z.pow_add_r in Hv by lia. change (2 ^ 7) with 128 in Hv. lia.
Qed.

Lemma GetVarint32_truncated (v : Z) (k : nat) :
  0 <= v < 2 ^ 32 -> (k < length (PutVarint32 [] v))%nat ->
  GetVarint32 (firstn k (PutVarint32 [] v)) = None.
Proof.
  unfold PutVarint32, GetVarint32, wrap32. cbn [app]. intros Hv Hk.
  rewrite Z.mod_small in * by trivial.
  apply GetVarintLoop_continues, EncodeVarint_firstn; trivial.
  change (2 ^ (7 * Z.of_nat 5)) with (2 ^ 32 * 8). lia.
Qed.

Lemma GetVarint64_truncated (v : Z) (k : nat) :
  0 <= v < 2 ^ 64 -> (k < length (PutVarint64 [] v))%nat ->
  GetVarint64 (firstn k (PutVarint64 [] v)) = None.
Proof.
  unfold PutVarint64, GetVarint64, wrap64. cbn [app]. intros Hv Hk.
  rewrite Z.mod_small in * by trivial.
  apply GetVarintLoop_continues, EncodeVarint_firstn; trivial.
  change (2 ^ (7 * Z.of_nat 10)) with (2 ^ 64 * 64). lia.
Qed.

Lemma GetVarintLoop_consumes (width : Z) (n : nat) :
  forall (shift result : Z) (p : list byte) (v : Z) (p' : list byte),
  GetVarintLoop width n shift result p = Some (v, p') ->
  exists used, used <> [] /\ p = used ++ p'.
Proof.
  induction n as [|n IH]; intros shift result p v p' E; [discriminate|].
  destruct p as [|b p]; [discriminate|].
  cbn [GetVarintLoop] in E. cbv zeta in E.
  destruct (Z.testbit (byte.unsigned b) 7).
  - apply IH in E. destruct E as (used & _ & ->).
    exists (b :: used). split; [discriminate | reflexivity].
  - injection E as _ <-. exists [b]. split; [discriminate | reflexivity].
Qed.

(** ** Length-prefixed strings *)

Lemma PutVarint64_app (dst : list byte) (v : Z) :
  PutVarint64 dst v = dst ++ PutVarint64 [] v.
Proof. reflexivity. Qed.

Lemma PutLengthPrefixedSlice_app (dst : list byte) (s : Slice) :
  PutLengthPrefixedSlice dst s = dst ++ PutLengthPrefixedSlice [] s.
Proof.
  unfold PutLengthPrefixedSlice, PutVarint32. cbn [app].
  rewrite app_assoc. reflexivity.
Qed.

Lemma GetLengthPrefixedSlice_Put (s : Slice) (rest : list byte) :
  fits32 s ->
  GetLengthPrefixedSlice (PutLengthPrefixedSlice [] s ++ rest) = Some (s, rest).
Proof.
  intros Hs. unfold GetLengthPrefixedSlice, PutLengthPrefixedSlice.
  rewrite <- app_assoc, GetVarint32_Put by (unfold fits32 in Hs; lia).
  rewrite Nat2Z.id, length_app.
  destruct (Z.ltb_spec (Z.of_nat (length s + length rest)) (Z.of_nat (length s)));
    [lia|].
  rewrite firstn_app, skipn_app, Nat.sub_diag, firstn_all, skipn_all.
  cbn [firstn skipn app]. rewrite app_nil_r. reflexivity.
Qed.

Lemma GetLengthPrefixedSlice_truncated (s : Slice) (k : nat) :
  fits32 s -> (k < length (PutLengthPrefixedSlice [] s))%nat ->
  GetLengthPrefixedSlice (firstn k (PutLengthPrefixedSlice [] s)) = None.
Proof.
  intros Hs. unfold GetLengthPrefixedSlice, PutLengthPrefixedSlice.
  set (n := Z.of_nat (length s)).
  assert (0 <= n < 2 ^ 32) as Hn by (unfold fits32 in Hs; lia).
  rewrite length_app, firstn_app. intros Hk.
  destruct (Nat.lt_ge_cases k (length (PutVarint32 [] n))) as [Hlt|Hge].
  - replace (k - length (PutVarint32 [] n))%nat with O by lia.
    cbn [firstn]. rewrite app_nil_r, GetVarint32_truncated; trivial.
  - rewrite firstn_all2, GetVarint32_Put by trivial.
    rewrite length_firstn.
    destruct (Z.ltb_spec
      (Z.of_nat (Nat.min (k - length (PutVarint32 [] n)) (length s))) n);
      [reflexivity | lia].
Qed.

Lemma GetLengthPrefixedSlice_consumes (input : list byte) (s : Slice)
    (input' : list byte) :
  GetLengthPrefixedSlice input = Some (s, input') ->
  exists used, used <> [] /\ input = used ++ input'.
Proof.
  unfold GetLengthPrefixedSlice, GetVarint32. intros E.
  destruct (GetVarintLoop 32 5 0 0 input) as [[len rest]|] eqn:G; [|discriminate].
  apply GetVarintLoop_consumes in G. destruct G as (used & Hu & ->).
  destruct (Z.of_nat (length rest) <? len); [discriminate|].
  injection E as <- <-.
  exists (used ++ firstn (Z.to_nat len) rest). split.
  - destruct used; [contradiction | discriminate].
  - rewrite <- app_assoc, firstn_skipn. reflexivity.
Qed.

(** ** Lists *)

Lemma skipn_exact {A : Type} (l1 l2 : list A) (n : nat) :
  length l1 = n -> skipn n (l1 ++ l2) = l2.
Proof.
  intros <-. rewrite skipn_app, skipn_all, Nat.sub_diag. reflexivity.
Qed.

Lemma firstn_exact {A : Type} (l1 l2 : list A) (n : nat) :
  length l1 = n -> firstn n (l1 ++ l2) = l1.
Proof.
  intros <-. rewrite firstn_app, firstn_all, Nat.sub_diag.
  cbn [firstn]. apply app_nil_r.
Qed.

Lemma WriteBatch_eq (a b : WriteBatch) : rep_ a = rep_ b -> a = b.
Proof. destruct a, b. cbn [rep_]. intros ->. reflexivity. Qed.

(** ** The header *)

Lemma EncodeFixed32_length (n : Z) : length (EncodeFixed32 n) = 4%nat.
Proof. apply length_le_split. Qed.

Lemma EncodeFixed64_length (n : Z) : length (EncodeFixed64 n) = 8%nat.
Proof. apply length_le_split. Qed.

Lemma DecodeFixed32_Encode (n : Z) (rest : list byte) :
  DecodeFixed32 (EncodeFixed32 n ++ rest) = wrap32 n.
Proof.
  unfold DecodeFixed32.
  rewrite firstn_app, EncodeFixed32_length, firstn_all2
    by (rewrite EncodeFixed32_length; lia).
  cbn [Nat.sub firstn]. rewrite app_nil_r.
  unfold EncodeFixed32. rewrite le_combine_split.
  unfold wrap32. apply Z.mod_mod. lia.
Qed.

Lemma DecodeFixed64_Encode (n : Z) (rest : list byte) :
  DecodeFixed64 (EncodeFixed64 n ++ rest) = wrap64 n.
Proof.
  unfold DecodeFixed64.
  rewrite firstn_app, EncodeFixed64_length, firstn_all2
    by (rewrite EncodeFixed64_length; lia).
  cbn [Nat.sub firstn]. rewrite app_nil_r.
  unfold EncodeFixed64. rewrite le_combine_split.
  unfold wrap64. apply Z.mod_mod. lia.
Qed.

Lemma DecodeFixed32_range (p : list byte) : 0 <= DecodeFixed32 p < 2 ^ 32.
Proof.
  unfold DecodeFixed32.
  pose proof (le_combine_bound (firstn 4 p)) as B.
  pose proof (firstn_le_length 4 p) as L.
  assert (2 ^ (8 * Z.of_nat (length (firstn 4 p))) <= 2 ^ 32)
    by (apply Z.pow_le_mono_r; lia).
  lia.
Qed.

Lemma SetCount_rep (b : WriteBatch) (n : Z) :
  has_header b ->
  rep_ (SetCount b n) = firstn 8 (rep_ b) ++ EncodeFixed32 n ++ skipn kHeader (rep_ b).
Proof. reflexivity. Qed.

Lemma SetCount_length (b : WriteBatch) (n : Z) :
  has_header b -> length (rep_ (SetCount b n)) = length (rep_ b).
Proof.
  unfold has_header, kHeader. intros Hb. rewrite SetCount_rep by trivial.
  rewrite !length_app, length_firstn, length_skipn, EncodeFixed32_length.
  unfold kHeader. lia.
Qed.

Lemma SetCount_records (b : WriteBatch) (n : Z) :
  has_header b -> skipn kHeader (rep_ (SetCount b n)) = skipn kHeader (rep_ b).
Proof.
  unfold has_header, kHeader. intros Hb. rewrite SetCount_rep by trivial.
  rewrite app_assoc. apply skipn_exact.
  rewrite length_app, length_firstn, EncodeFixed32_length. lia.
Qed.

Lemma SetCount_sequence_bytes (b : WriteBatch) (n : Z) :
  has_header b -> firstn 8 (rep_ (SetCount b n)) = firstn 8 (rep_ b).
Proof.
  unfold has_header, kHeader. intros Hb. rewrite SetCount_rep by trivial.
  apply firstn_exact. rewrite length_firstn. lia.
Qed.

Lemma Count_SetCount (b : WriteBatch) (n : Z) :
  has_header b -> Count (SetCount b n) = to_int32 n.
Proof.
  unfold has_header, kHeader. intros Hb. unfold Count.
  rewrite SetCount_rep by trivial.
  rewrite skipn_exact by (rewrite length_firstn; lia).
  rewrite DecodeFixed32_Encode. unfold to_int32, wrap32.
  rewrite Z.mod_mod by lia. reflexivity.
Qed.

Lemma Sequence_SetCount (b : WriteBatch) (n : Z) :
  has_header b -> Sequence (SetCount b n) = Sequence b.
Proof.
  intros Hb. unfold Sequence, DecodeFixed64.
  rewrite SetCount_sequence_bytes by trivial. reflexivity.
Qed.

(** Appending after the header changes neither of its fields. *)
Lemma Count_app (rep extra : list byte) :
  (kHeader <= length rep)%nat ->
  Count (mkWriteBatch (rep ++ extra)) = Count (mkWriteBatch rep).
Proof.
  unfold kHeader. intros Hb. unfold Count, DecodeFixed32. cbn [rep_].
  rewrite skipn_app, firstn_app, length_skipn.
  replace (4 - (length rep - 8))%nat with O by lia.
  cbn [firstn]. rewrite app_nil_r. reflexivity.
Qed.

Lemma Sequence_app (rep extra : list byte) :
  (kHeader <= length rep)%nat ->
  Sequence (mkWriteBatch (rep ++ extra)) = Sequence (mkWriteBatch rep).
Proof.
  unfold kHeader. intros Hb. unfold Sequence, DecodeFixed64. cbn [rep_].
  rewrite firstn_app.
  replace (8 - length rep)%nat with O by lia.
  cbn [firstn]. rewrite app_nil_r. reflexivity.
Qed.

(** ** [int] arithmetic *)

Lemma to_int32_mod (a : Z) : to_int32 (a mod 2 ^ 32) = to_int32 a.
Proof. unfold to_int32, wrap32. rewrite Z.mod_mod by lia. reflexivity. Qed.

Lemma to_int32_congr (a b : Z) :
  a mod 2 ^ 32 = b mod 2 ^ 32 -> to_int32 a = to_int32 b.
Proof. unfold to_int32, wrap32. intros ->. reflexivity. Qed.

Lemma to_int32_wrap (a : Z) : (to_int32 a) mod 2 ^ 32 = a mod 2 ^ 32.
Proof.
  unfold to_int32, wrap32.
  pose proof (Z.mod_pos_bound a (2 ^ 32) ltac:(lia)).
  destruct (Z.ltb_spec (a mod 2 ^ 32) (2 ^ 31)).
  - apply Z.mod_mod. lia.
  - rewrite <- (Z.mod_add _ 1) by lia.
    replace (a mod 2 ^ 32 - 2 ^ 32 + 1 * 2 ^ 32) with (a mod 2 ^ 32) by lia.
    apply Z.mod_mod. lia.
Qed.

Lemma to_int32_add_l (a b : Z) : to_int32 (to_int32 a + b) = to_int32 (a + b).
Proof.
  apply to_int32_congr.
  rewrite Z.add_mod, to_int32_wrap, <- Z.add_mod by lia. reflexivity.
Qed.

Lemma to_int32_small (a : Z) : - 2 ^ 31 <= a < 2 ^ 31 -> to_int32 a = a.
Proof.
  intros Ha. unfold to_int32, wrap32.
  destruct (Z.lt_ge_cases a 0).
  - rewrite <- (Z.mod_add a 1) by lia. rewrite Z.mod_small by lia.
    destruct (Z.ltb_spec (a + 1 * 2 ^ 32) (2 ^ 31)); lia.
  - rewrite Z.mod_small by lia.
    destruct (Z.ltb_spec a (2 ^ 31)); lia.
Qed.

Lemma to_int32_range (a : Z) : - 2 ^ 31 <= to_int32 a < 2 ^ 31.
Proof.
  unfold to_int32, wrap32.
  pose proof (Z.mod_pos_bound a (2 ^ 32) ltac:(lia)).
  destruct (Z.ltb_spec (a mod 2 ^ 32) (2 ^ 31)); lia.
Qed.

Lemma to_int32_idem (a : Z) : to_int32 (to_int32 a) = to_int32 a.
Proof. apply to_int32_small, to_int32_range. Qed.

Lemma to_int32_shift_eqb (a b d : Z) :
  to_int32 a = a -> to_int32 b = b ->
  (to_int32 (a + d) =? to_int32 (b + d)) = (a =? b).
Proof.
  intros Ha Hb. destruct (Z.eqb_spec a b) as [->|Hne]; [apply Z.eqb_refl|].
  apply Z.eqb_neq. intros E. apply Hne.
  rewrite <- Ha, <- Hb.
  replace a with (a + d + - d) by lia. replace b with (b + d + - d) by lia.
  rewrite <- (to_int32_add_l (a + d)), <- (to_int32_add_l (b + d)), E.
  reflexivity.
Qed.

Lemma Count_int (b : WriteBatch) : to_int32 (Count b) = Count b.
Proof. apply to_int32_idem. Qed.

(** ** What a call appends to the buffer *)

Lemma do_call_rep (b : WriteBatch) (c : Call) :
  rep_ (do_call b c) =
  rep_ (SetCount b (int_add (Count b) 1)) ++ call_record c.
Proof.
  destruct c as [now key value meta|key];
    unfold call_record; cbn [do_call call_tag call_payload].
  - unfold Put. fold (call_meta meta). cbv zeta. cbn [rep_].
    destruct (has_expiry_field (m_Type (call_meta meta))).
    + rewrite (PutLengthPrefixedSlice_app _ value), PutVarint64_app,
        (PutLengthPrefixedSlice_app _ key).
      rewrite <- !app_assoc. reflexivity.
    + rewrite (PutLengthPrefixedSlice_app _ value),
        (PutLengthPrefixedSlice_app _ key).
      rewrite <- !app_assoc. reflexivity.
  - unfold Delete. cbv zeta. cbn [rep_].
    rewrite PutLengthPrefixedSlice_app, <- !app_assoc. reflexivity.
Qed.

Lemma do_call_header (b : WriteBatch) (c : Call) :
  has_header b -> has_header (do_call b c).
Proof.
  unfold has_header. intros Hb.
  rewrite do_call_rep, length_app, SetCount_length by trivial. lia.
Qed.

Lemma do_calls_header (cs : list Call) :
  forall b, has_header b -> has_header (do_calls b cs).
Proof.
  induction cs as [|c cs IH]; intros b Hb; [exact Hb|].
  apply IH, do_call_header, Hb.
Qed.

Lemma fresh_header : has_header fresh.
Proof. unfold has_header, fresh, Clear. cbn [rep_]. rewrite repeat_length. lia. Qed.

Lemma Count_do_call (b : WriteBatch) (c : Call) :
  has_header b -> Count (do_call b c) = int_add (Count b) 1.
Proof.
  intros Hb.
  replace (do_call b c) with (mkWriteBatch (rep_ (do_call b c)))
    by (destruct (do_call b c); reflexivity).
  rewrite do_call_rep, Count_app
    by (rewrite SetCount_length; trivial).
  replace (mkWriteBatch (rep_ (SetCount b (int_add (Count b) 1))))
    with (SetCount b (int_add (Count b) 1)) by reflexivity.
  rewrite Count_SetCount by trivial. apply to_int32_idem.
Qed.

Lemma Sequence_do_call (b : WriteBatch) (c : Call) :
  has_header b -> Sequence (do_call b c) = Sequence b.
Proof.
  intros Hb.
  replace (do_call b c) with (mkWriteBatch (rep_ (do_call b c)))
    by (destruct (do_call b c); reflexivity).
  rewrite do_call_rep, Sequence_app
    by (rewrite SetCount_length; trivial).
  replace (mkWriteBatch (rep_ (SetCount b (int_add (Count b) 1))))
    with (SetCount b (int_add (Count b) 1)) by reflexivity.
  apply Sequence_SetCount, Hb.
Qed.

Lemma records_do_call (b : WriteBatch) (c : Call) :
  has_header b ->
  skipn kHeader (rep_ (do_call b c)) = skipn kHeader (rep_ b) ++ call_record c.
Proof.
  intros Hb. rewrite do_call_rep, skipn_app.
  rewrite SetCount_records, SetCount_length by trivial.
  replace (kHeader - length (rep_ b))%nat with O by (unfold has_header in Hb; lia).
  reflexivity.
Qed.

Lemma Count_do_calls (cs : list Call) :
  forall b, has_header b ->
  Count (do_calls b cs) = to_int32 (Count b + Z.of_nat (length cs)).
Proof.
  induction cs as [|c cs IH]; intros b Hb.
  - cbn. rewrite Z.add_0_r. symmetry. apply Count_int.
  - cbn [do_calls fold_left]. fold (do_calls (do_call b c) cs).
    rewrite IH, Count_do_call by (trivial; apply do_call_header, Hb).
    unfold int_add. rewrite to_int32_add_l. f_equal. cbn [length]. lia.
Qed.

Lemma Sequence_do_calls (cs : list Call) :
  forall b, has_header b -> Sequence (do_calls b cs) = Sequence b.
Proof.
  induction cs as [|c cs IH]; intros b Hb; [reflexivity|].
  cbn [do_calls fold_left]. fold (do_calls (do_call b c) cs).
  rewrite IH, Sequence_do_call by (trivial; apply do_call_header, Hb).
  reflexivity.
Qed.

Lemma records_do_calls (cs : list Call) :
  forall b, has_header b ->
  skipn kHeader (rep_ (do_calls b cs)) =
  skipn kHeader (rep_ b) ++ calls_records cs.
Proof.
  induction cs as [|c cs IH]; intros b Hb.
  - cbn. rewrite app_nil_r. reflexivity.
  - cbn [do_calls fold_left]. fold (do_calls (do_call b c) cs).
    rewrite IH, records_do_call by (trivial; apply do_call_header, Hb).
    unfold calls_records. cbn [map concat]. rewrite app_assoc. reflexivity.
Qed.

(** ** The loop of Iterate: progress, fuel and termination *)

Ltac inv_record E :=
  repeat match type of E with
  | match ?x with _ => _ end = _ =>
      let Q := fresh "Q" in destruct x eqn:Q; try discriminate E
  | (let (_, _) := ?x in _) = _ =>
      let Q := fresh "Q" in destruct x eqn:Q; try discriminate E
  end.

Section Loop.
Context {H : Type} `{Handler H}.

Lemma IterateLoop_nil (fuel : nat) (count : Z) (h : H) (found : Z) :
  IterateLoop fuel count h [] found =
  if negb (found =? count)
  then Some (Corruption "WriteBatch has wrong count", h)
  else Some (OK, h).
Proof. destruct fuel; reflexivity. Qed.

Lemma IterateLoop_nil_OK (fuel : nat) (count : Z) (h : H) (found : Z)
    (h1 : H) :
  IterateLoop fuel count h [] found = Some (OK, h1) ->
  found = count /\ h1 = h.
Proof.
  rewrite IterateLoop_nil.
  destruct (Z.eqb_spec found count); cbn [negb]; intros E;
    [|discriminate].
  injection E as <-. auto.
Qed.

Lemma IterateRecord_consumes (h : H) (c : byte) (input : list byte)
    (h' : H) (input' : list byte) :
  IterateRecord h c input = inr (h', input') ->
  exists used, used <> [] /\ input = used ++ input'.
Proof.
  unfold IterateRecord. intros E. inv_record E.
  all: injection E as _ <-.
  all: repeat match goal with
         | Q : GetLengthPrefixedSlice _ = Some _ |- _ =>
             apply GetLengthPrefixedSlice_consumes in Q;
             destruct Q as (? & ? & ->)
         | Q : GetVarint64 _ = Some _ |- _ =>
             apply GetVarintLoop_consumes in Q;
             destruct Q as (? & ? & ->)
         end.
  all: rewrite ?app_assoc; eexists; split; [|reflexivity].
  all: intros E; repeat (apply app_eq_nil in E; destruct E as [E ?]);
    contradiction.
Qed.

Lemma IterateRecord_inl (h : H) (c : byte) (input : list byte) (s : Status) :
  IterateRecord h c input = inl s -> exists msg, s = Corruption msg.
Proof.
  unfold IterateRecord. intros E. inv_record E.
  all: injection E as <-; eauto.
Qed.

Lemma IterateRecord_shorter (h : H) (c : byte) (input : list byte)
    (h' : H) (input' : list byte) :
  IterateRecord h c input = inr (h', input') ->
  (length input' < length input)%nat.
Proof.
  intros E. apply IterateRecord_consumes in E.
  destruct E as ([|u used] & Hu & ->); [contradiction|].
  rewrite length_app. cbn [length]. lia.
Qed.

Lemma IterateLoop_fuel (fuel1 : nat) :
  forall (fuel2 : nat) (count : Z) (h : H) (input : list byte) (found : Z),
  (length input <= fuel1)%nat -> (length input <= fuel2)%nat ->
  IterateLoop fuel1 count h input found = IterateLoop fuel2 count h input found.
Proof.
  induction fuel1 as [|fuel1 IH]; intros fuel2 count h input found H1 H2.
  - destruct input; [|cbn in H1; lia]. destruct fuel2; reflexivity.
  - destruct input as [|c input]; [destruct fuel2; reflexivity|].
    destruct fuel2 as [|fuel2]; [cbn in H2; lia|].
    cbn [IterateLoop]. cbv zeta.
    destruct (IterateRecord h c input) as [s|[h' input']] eqn:E; trivial.
    apply IterateRecord_shorter in E. cbn [length] in H1, H2.
    apply IH; lia.
Qed.

Lemma IterateLoop_terminates (fuel : nat) :
  forall (count : Z) (h : H) (input : list byte) (found : Z),
  (length input <= fuel)%nat ->
  exists s h', IterateLoop fuel count h input found = Some (s, h').
Proof.
  induction fuel as [|fuel IH]; intros count h input found Hf.
  - destruct input; [|cbn in Hf; lia]. cbn.
    destruct (negb (found =? count)); eauto.
  - destruct input as [|c input].
    + cbn. destruct (negb (found =? count)); eauto.
    + cbn [IterateLoop]. cbv zeta.
      destruct (IterateRecord h c input) as [s|[h' input']] eqn:E; eauto.
      apply IterateRecord_shorter in E. cbn [length] in Hf.
      apply IH. lia.
Qed.

Lemma Iterate_terminates (b : WriteBatch) (h : H) :
  exists s h', Iterate b h = Some (s, h').
Proof.
  unfold Iterate. cbv zeta.
  destruct (length (rep_ b) <? kHeader)%nat; eauto.
  apply IterateLoop_terminates. lia.
Qed.
End Loop.

(** ** Every handler sees the calls the recorder sees *)

Lemma IterateRecord_Recorder_from (evs : list Event) (c : byte)
    (input : list byte) :
  IterateRecord evs c input =
  match IterateRecord (H := list Event) [] c input with
  | inl s => inl s
  | inr (new, input') => inr (evs ++ new, input')
  end.
Proof.
  unfold IterateRecord.
  repeat match goal with
         | |- context [match ?x with _ => _ end] => destruct x
         end; reflexivity.
Qed.

Lemma IterateRecord_Recorder {H : Type} `{Handler H} (h : H) (c : byte)
    (input : list byte) :
  IterateRecord h c input =
  match IterateRecord (H := list Event) [] c input with
  | inl s => inl s
  | inr (new, input') => inr (fold_left replay_event new h, input')
  end.
Proof.
  unfold IterateRecord.
  repeat match goal with
         | |- context [match ?x with _ => _ end] => destruct x
         end; reflexivity.
Qed.

Lemma IterateLoop_Recorder_from (fuel : nat) :
  forall (count : Z) (evs : list Event) (input : list byte) (found : Z),
  IterateLoop fuel count evs input found =
  match IterateLoop (H := list Event) fuel count [] input found with
  | Some (s, new) => Some (s, evs ++ new)
  | None => None
  end.
Proof.
  induction fuel as [|fuel IH]; intros count evs input found.
  - destruct input; cbn; [|reflexivity].
    destruct (negb (found =? count)); rewrite app_nil_r; reflexivity.
  - destruct input as [|c input].
    + cbn. destruct (negb (found =? count)); rewrite app_nil_r; reflexivity.
    + cbn [IterateLoop]. cbv zeta.
      rewrite (IterateRecord_Recorder_from evs).
      destruct (IterateRecord [] c input) as [s|[new input']].
      * rewrite app_nil_r. reflexivity.
      * rewrite (IH _ (evs ++ new)), (IH _ new).
        destruct (IterateLoop fuel count [] input' (int_add found 1))
          as [[s new']|]; trivial.
        rewrite app_assoc. reflexivity.
Qed.

Lemma IterateLoop_Recorder {H : Type} `{Handler H} (fuel : nat) :
  forall (count : Z) (h : H) (input : list byte) (found : Z),
  IterateLoop fuel count h input found =
  match IterateLoop (H := list Event) fuel count [] input found with
  | Some (s, evs) => Some (s, fold_left replay_event evs h)
  | None => None
  end.
Proof.
  induction fuel as [|fuel IH]; intros count h input found.
  - destruct input; cbn; [|reflexivity].
    destruct (negb (found =? count)); reflexivity.
  - destruct input as [|c input].
    + cbn. destruct (negb (found =? count)); reflexivity.
    + cbn [IterateLoop]. cbv zeta.
      rewrite (IterateRecord_Recorder h).
      destruct (IterateRecord [] c input) as [s|[new input']]; trivial.
      rewrite IH, (IterateLoop_Recorder_from _ _ new).
      destruct (IterateLoop fuel count [] input' (int_add found 1))
        as [[s new']|]; trivial.
      rewrite fold_left_app. reflexivity.
Qed.

Lemma Iterate_Replay {H : Type} `{Handler H} (b : WriteBatch) (h : H) :
  Iterate b h =
  match Replay b with
  | Some (s, evs) => Some (s, fold_left replay_event evs h)
  | None => None
  end.
Proof.
  unfold Replay, Iterate. cbv zeta.
  destruct (length (rep_ b) <? kHeader)%nat; trivial.
  apply IterateLoop_Recorder.
Qed.

(** ** Decoding what the calls wrote *)

Lemma tag_of_byte_code (t : ValueType) :
  tag_of_byte (byte.of_Z (ValueType_code t)) = Some t.
Proof. destruct t; reflexivity. Qed.

Lemma resolved_expiry_u64 (now : ExpiryTime) (m : KeyMetaData) :
  in_u64 now -> in_u64 (m_Expiry m) -> in_u64 (resolved_expiry now m).
Proof.
  unfold resolved_expiry. intros Hn Hm.
  destruct (ValueType_eqb kTypeValueWriteTime (m_Type m) && (0 =? m_Expiry m));
    trivial.
Qed.

Lemma replayed_expiry_resolved (now : ExpiryTime) (m : KeyMetaData) :
  replayed_expiry now m =
  if has_expiry_field (m_Type m) then resolved_expiry now m else 0.
Proof.
  destruct m as [t e]. unfold replayed_expiry, resolved_expiry.
  destruct t; cbn [m_Type m_Expiry has_expiry_field ValueType_eqb
                   ValueType_code Z.eqb Pos.eqb orb andb]; trivial.
Qed.

Lemma GetLengthPrefixedSlice_firstn (s : Slice) (tail : list byte) (k : nat) :
  fits32 s ->
  GetLengthPrefixedSlice (firstn k (PutLengthPrefixedSlice [] s ++ tail)) =
  if (k <? length (PutLengthPrefixedSlice [] s))%nat then None
  else Some (s, firstn (k - length (PutLengthPrefixedSlice [] s)) tail).
Proof.
  intros Hs. rewrite firstn_app.
  destruct (Nat.ltb_spec k (length (PutLengthPrefixedSlice [] s))) as [Hk|Hk].
  - replace (k - length (PutLengthPrefixedSlice [] s))%nat with O by lia.
    cbn [firstn]. rewrite app_nil_r.
    apply GetLengthPrefixedSlice_truncated; trivial.
  - rewrite firstn_all2 by trivial. apply GetLengthPrefixedSlice_Put, Hs.
Qed.

Lemma GetVarint64_firstn (v : Z) (tail : list byte) (k : nat) :
  in_u64 v ->
  GetVarint64 (firstn k (PutVarint64 [] v ++ tail)) =
  if (k <? length (PutVarint64 [] v))%nat then None
  else Some (v, firstn (k - length (PutVarint64 [] v)) tail).
Proof.
  intros Hv. rewrite firstn_app.
  destruct (Nat.ltb_spec k (length (PutVarint64 [] v))) as [Hk|Hk].
  - replace (k - length (PutVarint64 [] v))%nat with O by lia.
    cbn [firstn]. rewrite app_nil_r.
    apply GetVarint64_truncated; trivial.
  - rewrite firstn_all2 by trivial. apply GetVarint64_Put, Hv.
Qed.

Section Calls.
Context {H : Type} `{Handler H}.

Lemma IterateRecord_call (h : H) (c : Call) (rest : list byte) :
  call_ok c ->
  IterateRecord h (call_tag c) (call_payload c ++ rest) =
  inr (replay_event h (call_event c), rest).
Proof.
  destruct c as [now key value meta|key];
    cbn [call_ok call_tag call_payload call_event replay_event]; cbv zeta.
  - intros (Ht & Hk & Hv & Hn & He).
    pose proof (resolved_expiry_u64 _ _ Hn He) as Hr.
    rewrite replayed_expiry_resolved.
    unfold IterateRecord. rewrite tag_of_byte_code.
    destruct (m_Type (call_meta meta)) eqn:T; try contradiction;
      cbn [has_expiry_field ValueType_eqb ValueType_code Z.eqb orb
           Pos.eqb];
      rewrite <- ?app_assoc;
      rewrite GetLengthPrefixedSlice_Put by trivial;
      rewrite ?GetVarint64_Put by trivial;
      cbn [app];
      rewrite GetLengthPrefixedSlice_Put by trivial;
      reflexivity.
  - intros Hk. unfold IterateRecord. rewrite tag_of_byte_code.
    rewrite GetLengthPrefixedSlice_Put by trivial. reflexivity.
Qed.

Lemma IterateRecord_truncated (h : H) (c : Call) (k : nat) :
  call_ok c -> (k < length (call_payload c))%nat ->
  exists msg,
    IterateRecord h (call_tag c) (firstn k (call_payload c)) =
    inl (Corruption msg).
Proof.
  destruct c as [now key value meta|key];
    cbn [call_ok call_tag call_payload]; cbv zeta.
  - intros (Ht & Hk & Hv & Hn & He).
    pose proof (resolved_expiry_u64 _ _ Hn He) as Hr.
    unfold IterateRecord. rewrite tag_of_byte_code.
    destruct (m_Type (call_meta meta)) eqn:T; try contradiction;
      cbn [has_expiry_field ValueType_eqb ValueType_code Z.eqb orb
           Pos.eqb];
      rewrite !length_app; intros Hlen;
      rewrite GetLengthPrefixedSlice_firstn by trivial;
      (destruct (Nat.ltb_spec k (length (PutLengthPrefixedSlice [] key)));
       [eauto|]);
      rewrite ?GetVarint64_firstn by trivial;
      try (destruct (Nat.ltb_spec
             (k - length (PutLengthPrefixedSlice [] key))
             (length (PutVarint64 [] (resolved_expiry now (call_meta meta)))));
           [eauto|]);
      cbn [app];
      rewrite <- (app_nil_r (PutLengthPrefixedSlice [] value));
      rewrite GetLengthPrefixedSlice_firstn by trivial;
      match goal with
      | |- context [(?a <? ?b)%nat] => destruct (Nat.ltb_spec a b)
      end; eauto; cbn [length] in Hlen; lia.
  - intros Hk Hlen. unfold IterateRecord. rewrite tag_of_byte_code.
    rewrite <- (app_nil_r (PutLengthPrefixedSlice [] key)).
    rewrite GetLengthPrefixedSlice_firstn by trivial.
    destruct (Nat.ltb_spec k (length (PutLengthPrefixedSlice [] key)));
      [eauto | lia].
Qed.

Lemma IterateLoop_calls (cs : list Call) :
  forall (fuel : nat) (count : Z) (h : H) (rest : list byte) (found : Z),
  Forall call_ok cs ->
  (length (calls_records cs ++ rest) <= fuel)%nat ->
  to_int32 found = found ->
  IterateLoop fuel count h (calls_records cs ++ rest) found =
  IterateLoop fuel count (fold_left replay_event (map call_event cs) h) rest
    (to_int32 (found + Z.of_nat (length cs))).
Proof.
  induction cs as [|c cs IH]; intros fuel count h rest found Hok Hf Hfound.
  - cbn [calls_records map concat app fold_left length Z.of_nat].
    rewrite Z.add_0_r, Hfound. reflexivity.
  - inversion Hok as [|? ? Hc Hcs]; subst.
    unfold calls_records in *. cbn [map concat] in *.
    unfold call_record in *. cbn [app] in *.
    destruct fuel as [|fuel]; [cbn [length] in Hf; lia|].
    match goal with |- _ = ?r => set (R := r) end.
    cbn [IterateLoop]. cbv zeta.
    rewrite <- app_assoc, IterateRecord_call by trivial.
    cbn [length] in Hf. rewrite <- app_assoc, length_app in Hf.
    rewrite IH; trivial; [| lia | apply to_int32_idem].
    subst R. cbn [fold_left map]. unfold int_add. rewrite to_int32_add_l.
    replace (found + 1 + Z.of_nat (length cs))
      with (found + Z.of_nat (length (c :: cs))) by (cbn [length]; lia).
    apply IterateLoop_fuel; rewrite length_app in Hf; lia.
Qed.
End Calls.

(** ** Batches built by calls *)

Lemma fresh_records : skipn kHeader (rep_ fresh) = [].
Proof. reflexivity. Qed.

Lemma Count_fresh : Count fresh = 0.
Proof. reflexivity. Qed.

Lemma Recorder_replay (evs : list Event) :
  forall h : list Event, fold_left replay_event evs h = h ++ evs.
Proof.
  induction evs as [|e evs IH]; intros h; cbn [fold_left].
  - symmetry. apply app_nil_r.
  - rewrite IH. destruct e; cbn; rewrite <- app_assoc; reflexivity.
Qed.

Lemma Iterate_do_calls {H : Type} `{Handler H} (cs : list Call) (h : H) :
  Forall call_ok cs ->
  Iterate (do_calls fresh cs) h =
  Some (OK, fold_left replay_event (map call_event cs) h).
Proof.
  intros Hok. unfold Iterate. cbv zeta.
  pose proof (do_calls_header cs fresh fresh_header) as Hh.
  destruct (Nat.ltb_spec (length (rep_ (do_calls fresh cs))) kHeader) as [Hl|_];
    [unfold has_header in Hh; lia|].
  rewrite records_do_calls, fresh_records by apply fresh_header.
  cbn [app].
  rewrite <- (app_nil_r (calls_records cs)) at 2.
  rewrite IterateLoop_calls; trivial; [|rewrite app_nil_r; lia].
  rewrite Count_do_calls, Count_fresh by apply fresh_header.
  rewrite IterateLoop_nil, Z.eqb_refl. reflexivity.
Qed.

Lemma IterateRecord_event (c : byte) (input : list byte) (new : list Event)
    (input' : list byte) :
  IterateRecord (H := list Event) [] c input = inr (new, input') ->
  exists e, new = [e] /\ event_of_Iterate e.
Proof.
  unfold IterateRecord. intros E. inv_record E.
  all: injection E as <- _; eexists; split; [reflexivity|].
  all: cbn; repeat split; trivial; discriminate.
Qed.

Lemma IterateLoop_events (fuel : nat) :
  forall (count : Z) (input : list byte) (found : Z) (s : Status)
    (evs : list Event),
  IterateLoop (H := list Event) fuel count [] input found = Some (s, evs) ->
  Forall event_of_Iterate evs.
Proof.
  induction fuel as [|fuel IH]; intros count input found s evs E.
  - destruct input; [|discriminate]. cbn in E.
    destruct (negb (found =? count)); injection E as _ <-; constructor.
  - destruct input as [|c input].
    + cbn in E.
      destruct (negb (found =? count)); injection E as _ <-; constructor.
    + cbn [IterateLoop] in E. cbv zeta in E.
      destruct (IterateRecord [] c input) as [s'|[new input']] eqn:R.
      * injection E as _ <-. constructor.
      * apply IterateRecord_event in R. destruct R as (e & -> & He).
        rewrite IterateLoop_Recorder_from in E.
        destruct (IterateLoop fuel count [] input' (int_add found 1))
          as [[s' evs']|] eqn:L; [|discriminate].
        injection E as _ <-. constructor; trivial.
        eapply IH, L.
Qed.

Lemma Replay_events (b : WriteBatch) (s : Status) (evs : list Event) :
  Replay b = Some (s, evs) -> Forall event_of_Iterate evs.
Proof.
  unfold Replay, Iterate. cbv zeta.
  destruct (length (rep_ b) <? kHeader)%nat.
  - intros E. injection E as _ <-. constructor.
  - apply IterateLoop_events.
Qed.

(** ** C1: replaying the calls *)

(** C1 (as amended).  For every sequence of Delete calls and of Put calls
    with a value-bearing type (keys and values short enough for the
    varint32 length prefix, expiry and clock values in [uint64_t]) applied
    to a freshly cleared batch, Iterate returns OK and invokes the handler
    once per call, in the same order, with the same key, value and type,
    and with the expiry that Put encoded: 0 for the plain Value type, the
    clock's reading for write-time-expiry with expiry 0, the caller's
    expiry otherwise.  This holds for the recording handler and for every
    other handler. *)
Theorem Iterate_replays_calls (cs : list Call) :
  Forall call_ok cs ->
  Replay (do_calls fresh cs) = Some (OK, map call_event cs) /\
  forall (H : Type) (HH : Handler H) (h : H),
    Iterate (do_calls fresh cs) h =
    Some (OK, fold_left replay_event (map call_event cs) h).
Proof.
  intros Hok. split.
  - unfold Replay. rewrite Iterate_do_calls by trivial.
    rewrite Recorder_replay. reflexivity.
  - intros H HH h. apply Iterate_do_calls, Hok.
Qed.

Lemma calls_with_expiry_ok : Forall call_ok calls_with_expiry.
Proof.
  unfold calls_with_expiry.
  repeat constructor; try discriminate; cbn; lia.
Defined.

Lemma Iterate_replays_calls_witness :
  Replay (do_calls fresh calls_with_expiry) =
    Some (OK, map call_event calls_with_expiry) /\
  forall (H : Type) (HH : Handler H) (h : H),
    Iterate (do_calls fresh calls_with_expiry) h =
    Some (OK, fold_left replay_event (map call_event calls_with_expiry) h).
Proof.
  exact (Iterate_replays_calls calls_with_expiry calls_with_expiry_ok).
Defined.

(** C1 as stated fails: a Put of write-time-expiry type with expiry 0, made
    when the clock reads 7, is replayed with expiry 7, and a Put of the
    plain Value type with expiry 5 is replayed with expiry 0. *)
Lemma replay_not_as_made :
  Replay (do_calls fresh calls_with_expiry) =
    Some (OK, [EvPut [Byte.x61] [Byte.x31] kTypeValueWriteTime 7;
               EvPut [Byte.x62] [Byte.x32] kTypeValue 0;
               EvPut [Byte.x63] [Byte.x33] kTypeValueExplicitExpiry 0;
               EvDelete [Byte.x61]]) /\
  Replay (do_calls fresh calls_with_expiry) <>
    Some (OK, map call_as_made calls_with_expiry).
Proof.
  split; [vm_compute; reflexivity|].
  vm_compute. intros E. discriminate E.
Qed.

(** ** C3: the count field *)




(** ** C6 and C10: the record Put appends *)

Lemma Put_rep (now : ExpiryTime) (b : WriteBatch) (key value : Slice)
    (m : KeyMetaData) :
  rep_ (Put now b key value (Some m)) =
  rep_ (SetCount b (int_add (Count b) 1))
  ++ [byte.of_Z (ValueType_code (m_Type m))]
  ++ PutLengthPrefixedSlice [] key
  ++ (if has_expiry_field (m_Type m)
      then PutVarint64 [] (resolved_expiry now m) else [])
  ++ PutLengthPrefixedSlice [] value.
Proof. exact (do_call_rep b (CallPut now key value (Some m))). Qed.

Lemma Replay_Put (now : ExpiryTime) (key value : Slice) (m : KeyMetaData) :
  call_ok (CallPut now key value (Some m)) ->
  Replay (Put now fresh key value (Some m)) =
  Some (OK, [call_event (CallPut now key value (Some m))]).
Proof.
  intros Hok. unfold Replay.
  change (Put now fresh key value (Some m))
    with (do_calls fresh [CallPut now key value (Some m)]).
  rewrite Iterate_do_calls by (constructor; [exact Hok | constructor]).
  reflexivity.
Qed.

(** C6.  Put with type write-time-expiry and expiry 0 writes the clock's
    reading [now] as the expiry field of the record, between the key and
    the value; Put with type explicit-expiry writes the caller's expiry
    as given, 0 included; Put with the plain Value type writes the value
    right after the key, with no expiry field.  Replaying the record hands
    the handler the expiry that was written (0 for the plain Value
    type). *)
Theorem Put_expiry_field (now e : ExpiryTime) (b : WriteBatch)
    (key value : Slice) :
  fits32 key -> fits32 value -> in_u64 now -> in_u64 e ->
  (rep_ (Put now b key value (Some (mkKeyMetaData kTypeValueWriteTime 0))) =
   rep_ (SetCount b (int_add (Count b) 1))
   ++ [byte.of_Z (ValueType_code kTypeValueWriteTime)]
   ++ PutLengthPrefixedSlice [] key
   ++ PutVarint64 [] now
   ++ PutLengthPrefixedSlice [] value) /\
  (rep_ (Put now b key value (Some (mkKeyMetaData kTypeValueExplicitExpiry e))) =
   rep_ (SetCount b (int_add (Count b) 1))
   ++ [byte.of_Z (ValueType_code kTypeValueExplicitExpiry)]
   ++ PutLengthPrefixedSlice [] key
   ++ PutVarint64 [] e
   ++ PutLengthPrefixedSlice [] value) /\
  (rep_ (Put now b key value (Some (mkKeyMetaData kTypeValue e))) =
   rep_ (SetCount b (int_add (Count b) 1))
   ++ [byte.of_Z (ValueType_code kTypeValue)]
   ++ PutLengthPrefixedSlice [] key
   ++ PutLengthPrefixedSlice [] value) /\
  Replay (Put now fresh key value (Some (mkKeyMetaData kTypeValueWriteTime 0))) =
    Some (OK, [EvPut key value kTypeValueWriteTime now]) /\
  Replay (Put now fresh key value (Some (mkKeyMetaData kTypeValueExplicitExpiry e))) =
    Some (OK, [EvPut key value kTypeValueExplicitExpiry e]) /\
  Replay (Put now fresh key value (Some (mkKeyMetaData kTypeValue e))) =
    Some (OK, [EvPut key value kTypeValue 0]).
Proof.
  intros Hk Hv Hn He.
  assert (in_u64 0) as H0 by (unfold in_u64; lia).
  repeat split.
  1-3: rewrite Put_rep; reflexivity.
  all: rewrite Replay_Put; [reflexivity|].
  all: cbn [call_ok call_meta m_Type m_Expiry].
  all: split; [discriminate|]; auto.
Qed.

Lemma Put_expiry_field_witness :
  Replay (Put 7 fresh [Byte.x61] [Byte.x31]
            (Some (mkKeyMetaData kTypeValueWriteTime 0))) =
    Some (OK, [EvPut [Byte.x61] [Byte.x31] kTypeValueWriteTime 7]) /\
  Replay (Put 7 fresh [Byte.x61] [Byte.x31]
            (Some (mkKeyMetaData kTypeValueExplicitExpiry 0))) =
    Some (OK, [EvPut [Byte.x61] [Byte.x31] kTypeValueExplicitExpiry 0]) /\
  Replay (Put 7 fresh [Byte.x61] [Byte.x31]
            (Some (mkKeyMetaData kTypeValue 0))) =
    Some (OK, [EvPut [Byte.x61] [Byte.x31] kTypeValue 0]).
Proof.
  assert (fits32 [Byte.x61]) as Hk by (unfold fits32; cbn; lia).
  assert (fits32 [Byte.x31]) as Hv by (unfold fits32; cbn; lia).
  assert (in_u64 7) as Hn by (unfold in_u64; lia).
  assert (in_u64 0) as He by (unfold in_u64; lia).
  exact (proj2 (proj2 (proj2
    (Put_expiry_field 7 0 fresh [Byte.x61] [Byte.x31] Hk Hv Hn He)))).
Defined.

(** The bytes of a put of the key [a] and the empty value with the
    Deletion type are those of a delete of [a] followed by a lone zero
    byte. *)
Example Put_Deletion_bytes :
  skipn kHeader
    (rep_ (Put 0 fresh [Byte.x61] [] (Some (mkKeyMetaData kTypeDeletion 0)))) =
  [Byte.x00; Byte.x01; Byte.x61; Byte.x00] /\
  Replay (Put 0 fresh [Byte.x61] [] (Some (mkKeyMetaData kTypeDeletion 0))) =
  Some (Corruption "bad WriteBatch Delete", [EvDelete [Byte.x61]]).
Proof. split; vm_compute; reflexivity. Qed.

(** C10.  The record Put appends is the byte of [meta.type], whatever the
    type, the key as a varstring, the expiry as a varint exactly when the
    type is write-time-expiry or explicit-expiry, and then the value as a
    varstring, for every type.  A Put of the Deletion type is never
    replayed as that put: Iterate returns, and whatever calls it has made
    on the handler, none is a Put of the Deletion type. *)
Theorem Put_writes_type_unchecked (now : ExpiryTime) (b : WriteBatch)
    (key value : Slice) (m : KeyMetaData) :
  rep_ (Put now b key value (Some m)) =
    rep_ (SetCount b (int_add (Count b) 1))
    ++ [byte.of_Z (ValueType_code (m_Type m))]
    ++ PutLengthPrefixedSlice [] key
    ++ (if has_expiry_field (m_Type m)
        then PutVarint64 [] (resolved_expiry now m) else [])
    ++ PutLengthPrefixedSlice [] value /\
  (has_expiry_field (m_Type m) = true <->
   m_Type m = kTypeValueWriteTime \/ m_Type m = kTypeValueExplicitExpiry) /\
  forall e : ExpiryTime, exists (s : Status) (evs : list Event),
    Replay (Put now fresh key value (Some (mkKeyMetaData kTypeDeletion e))) =
      Some (s, evs) /\
    forall x : ExpiryTime, ~ In (EvPut key value kTypeDeletion x) evs.
Proof.
  split; [apply Put_rep|]. split.
  - destruct (m_Type m); cbn; split; intros E;
      try discriminate; try (destruct E; discriminate); auto.
  - intros e.
    destruct (Iterate_terminates
      (Put now fresh key value (Some (mkKeyMetaData kTypeDeletion e)))
      ([] : list Event)) as (s & evs & E).
    exists s, evs. split; [exact E|].
    intros x Hin. apply Replay_events in E.
    rewrite Forall_forall in E. apply E in Hin. cbn in Hin.
    destruct Hin as [Hin _]. apply Hin. reflexivity.
Qed.

(** ** C7: Iterate terminates on every buffer *)

(** *** Reads of the buffer *)

Lemma skipn_nth_error (rep : list byte) :
  forall (p : nat) (b : byte),
  nth_error rep p = Some b -> skipn p rep = b :: skipn (S p) rep.
Proof.
  induction rep as [|a rep IH]; intros [|p] b E; try discriminate.
  - injection E as ->. reflexivity.
  - cbn [nth_error] in E. apply IH in E. exact E.
Qed.

Lemma read_byte_inside (rep : list byte) (p : nat) :
  (p < length rep)%nat -> exists b, read_byte rep p = Some b.
Proof.
  intros Hp. unfold read_byte.
  destruct (nth_error rep p) as [b|] eqn:E; [eauto|].
  apply nth_error_None in E. lia.
Qed.

Lemma read_bytes_inside (rep : list byte) (n : nat) :
  forall p : nat,
  (p + n <= length rep)%nat ->
  read_bytes rep p n = Some (firstn n (skipn p rep)).
Proof.
  induction n as [|n IH]; intros p Hp; [reflexivity|].
  cbn [read_bytes].
  destruct (read_byte_inside rep p ltac:(lia)) as (b & E). rewrite E.
  rewrite IH by lia. rewrite (skipn_nth_error rep p b E). reflexivity.
Qed.

Lemma slice_is_length (rep : list byte) (s : SliceAt) (l : list byte) :
  slice_is rep s l -> length l = size_ s.
Proof.
  intros [Hb <-]. unfold view. rewrite length_firstn, length_skipn. lia.
Qed.

Lemma slice_is_bytes (rep : list byte) (s : SliceAt) (l : list byte) :
  slice_is rep s l -> SliceAt_bytes rep s = Some l.
Proof.
  intros [Hb <-]. unfold SliceAt_bytes, view. apply read_bytes_inside, Hb.
Qed.

Lemma slice_is_suffix (rep : list byte) (s : SliceAt) (used rest : list byte) :
  slice_is rep s (used ++ rest) ->
  slice_is rep (mkSliceAt (data_ s + length used) (length rest)) rest.
Proof.
  intros Hs. pose proof (slice_is_length _ _ _ Hs) as Hl.
  rewrite length_app in Hl. destruct Hs as [Hb Hv].
  split; cbn [data_ size_]; [lia|]. unfold view in *. cbn [data_ size_].
  rewrite Nat.add_comm, <- skipn_skipn.
  rewrite <- (firstn_skipn (size_ s) (skipn (data_ s) rep)), Hv.
  rewrite <- app_assoc, skipn_exact by reflexivity.
  apply firstn_exact. reflexivity.
Qed.

Lemma slice_is_prefix (rep : list byte) (s : SliceAt) (a rest : list byte) :
  slice_is rep s (a ++ rest) ->
  slice_is rep (mkSliceAt (data_ s) (length a)) a.
Proof.
  intros Hs. pose proof (slice_is_length _ _ _ Hs) as Hl.
  rewrite length_app in Hl. destruct Hs as [Hb Hv].
  split; cbn [data_ size_]; [lia|]. unfold view in *. cbn [data_ size_].
  rewrite <- (firstn_skipn (size_ s) (skipn (data_ s) rep)), Hv.
  rewrite <- app_assoc. apply firstn_exact. reflexivity.
Qed.

Lemma slice_is_head (rep : list byte) (s : SliceAt) (c : byte)
    (l : list byte) :
  slice_is rep s (c :: l) ->
  SliceAt_index rep s 0 = Some c /\
  exists s', SliceAt_remove_prefix s 1 = Some s' /\ slice_is rep s' l.
Proof.
  intros Hs. pose proof (slice_is_length _ _ _ Hs) as Hl. cbn [length] in Hl.
  split.
  - unfold SliceAt_index. destruct (Nat.ltb_spec 0 (size_ s)); [|lia].
    apply slice_is_bytes in Hs. unfold SliceAt_bytes in Hs.
    rewrite <- Hl in Hs. cbn [read_bytes] in Hs. rewrite Nat.add_0_r.
    destruct (read_byte rep (data_ s)) as [b|]; [|discriminate].
    destruct (read_bytes rep (S (data_ s)) (length l)); [|discriminate].
    injection Hs as -> _. reflexivity.
  - unfold SliceAt_remove_prefix. destruct (Nat.leb_spec 1 (size_ s)); [|lia].
    eexists. split; [reflexivity|].
    replace (size_ s - 1)%nat with (length l) by lia.
    apply (slice_is_suffix rep s [c] l Hs).
Qed.

(** *** The decoders on slices and on lists *)

Lemma GetVarintLoop_at_spec (rep : list byte) (width : Z) (limit : nat)
    (n : nat) :
  (limit <= length rep)%nat ->
  forall (shift result : Z) (p : nat),
  (p <= limit)%nat ->
  GetVarintLoop_at rep width n shift result p limit =
  Some (match GetVarintLoop width n shift result
                (firstn (limit - p) (skipn p rep)) with
        | Some (v, rest) => Some (v, (limit - length rest)%nat)
        | None => None
        end).
Proof.
  intros Hl. induction n as [|n IH]; intros shift result p Hp; [reflexivity|].
  cbn [GetVarintLoop_at].
  destruct (Nat.ltb_spec p limit) as [Hlt|Hge].
  - destruct (read_byte_inside rep p ltac:(lia)) as (b & E). rewrite E.
    rewrite (skipn_nth_error rep p b E).
    replace (limit - p)%nat with (S (limit - S p)) by lia.
    cbn [firstn GetVarintLoop]. cbv zeta.
    destruct (Z.testbit (byte.unsigned b) 7).
    + apply IH. lia.
    + rewrite length_firstn, length_skipn.
      do 3 f_equal. lia.
  - replace (limit - p)%nat with O by lia. reflexivity.
Qed.

Lemma GetVarint_at_spec (rep : list byte) (width : Z) (n : nat)
    (s : SliceAt) (l : list byte) :
  slice_is rep s l ->
  match GetVarintLoop width n 0 0 l with
  | Some (v, rest) =>
      exists rs, GetVarint_at rep width n s = Some (Some (v, rs)) /\
                 slice_is rep rs rest /\
                 (data_ rs + size_ rs = data_ s + size_ s)%nat
  | None => GetVarint_at rep width n s = Some None
  end.
Proof.
  intros Hs. pose proof (slice_is_length _ _ _ Hs) as Hlen.
  unfold GetVarint_at. cbv zeta.
  rewrite GetVarintLoop_at_spec by (destruct Hs; lia).
  replace (data_ s + size_ s - data_ s)%nat with (size_ s) by lia.
  destruct Hs as [Hb Hv]. unfold view in Hv. rewrite Hv.
  destruct (GetVarintLoop width n 0 0 l) as [[v rest]|] eqn:G; [|reflexivity].
  apply GetVarintLoop_consumes in G. destruct G as (used & _ & ->).
  rewrite length_app in Hlen.
  eexists. split; [reflexivity|].
  replace (data_ s + size_ s - length rest)%nat
    with (data_ s + length used)%nat by lia.
  replace (data_ s + size_ s - (data_ s + length used))%nat
    with (length rest) by lia.
  split; [|cbn [data_ size_]; lia].
  apply (slice_is_suffix rep s used rest). split; assumption.
Qed.

Lemma GetLengthPrefixedSlice_at_spec (rep : list byte) (s : SliceAt)
    (l : list byte) :
  slice_is rep s l ->
  match GetLengthPrefixedSlice l with
  | Some (key, rest) =>
      exists ks rs,
        GetLengthPrefixedSlice_at rep s = Some (Some (ks, rs)) /\
        slice_is rep ks key /\ slice_is rep rs rest /\
        (data_ rs + size_ rs = data_ s + size_ s)%nat
  | None => GetLengthPrefixedSlice_at rep s = Some None
  end.
Proof.
  intros Hs. unfold GetLengthPrefixedSlice, GetLengthPrefixedSlice_at,
    GetVarint32, GetVarint32_at.
  pose proof (GetVarint_at_spec rep 32 5 s l Hs) as G.
  destruct (GetVarintLoop 32 5 0 0 l) as [[len input]|]; [|rewrite G; reflexivity].
  destruct G as (s1 & -> & H1 & He).
  pose proof (slice_is_length _ _ _ H1) as Hlen. rewrite <- Hlen.
  destruct (Z.ltb_spec (Z.of_nat (length input)) len) as [|Hle];
    [reflexivity|].
  unfold SliceAt_remove_prefix.
  destruct (Nat.leb_spec (Z.to_nat len) (size_ s1)) as [Hn|]; [|lia].
  rewrite <- (firstn_skipn (Z.to_nat len) input) in H1.
  do 2 eexists. split; [reflexivity|]. split; [|split].
  - replace (Z.to_nat len) with (length (firstn (Z.to_nat len) input)) at 1
      by (rewrite length_firstn; lia).
    apply (slice_is_prefix rep s1 _ _ H1).
  - replace (data_ s1 + Z.to_nat len)%nat
      with (data_ s1 + length (firstn (Z.to_nat len) input))%nat
      by (rewrite length_firstn; lia).
    replace (size_ s1 - Z.to_nat len)%nat
      with (length (skipn (Z.to_nat len) input))
      by (rewrite length_skipn; lia).
    apply (slice_is_suffix rep s1 _ _ H1).
  - cbn [data_ size_]. lia.
Qed.

Lemma Count_at_inside (rep : list byte) :
  (kHeader <= length rep)%nat -> Count_at rep = Some (Count (mkWriteBatch rep)).
Proof.
  unfold kHeader. intros Hl. unfold Count_at, Count, DecodeFixed32.
  rewrite read_bytes_inside by lia. reflexivity.
Qed.

Ltac at_step G :=
  match type of G with
  | match ?x with _ => _ end =>
      let key := fresh "key" in
      let l := fresh "l" in
      let ks := fresh "ks" in
      let s := fresh "s" in
      let Hk := fresh "Hk" in
      let Hs := fresh "Hs" in
      let He := fresh "He" in
      destruct x as [[key l]|];
      [destruct G as (ks & s & -> & Hk & Hs & He) | rewrite G]
  end.

Ltac at_varint64 G :=
  match type of G with
  | match ?x with _ => _ end =>
      let expiry := fresh "expiry" in
      let l := fresh "l" in
      let s := fresh "s" in
      let Hs := fresh "Hs" in
      let He := fresh "He" in
      destruct x as [[expiry l]|];
      [destruct G as (s & -> & Hs & He) | rewrite G]
  end.

Ltac at_done := eexists; split; [reflexivity|]; split; [eassumption | lia].

Section AtSpec.
Context {H : Type} `{Handler H}.

Lemma IterateRecord_at_spec (rep : list byte) (h : H) (c : byte)
    (s : SliceAt) (l : list byte) :
  slice_is rep s l ->
  match IterateRecord h c l with
  | inl st => IterateRecord_at rep h c s = Some (inl st)
  | inr (h', rest) =>
      exists rs, IterateRecord_at rep h c s = Some (inr (h', rs)) /\
                 slice_is rep rs rest /\
                 (data_ rs + size_ rs = data_ s + size_ s)%nat
  end.
Proof.
  intros Hs. unfold IterateRecord, IterateRecord_at.
  unfold GetVarint64, GetVarint64_at.
  destruct (tag_of_byte c) as [[| | |]|]; [| | | |reflexivity].
  - pose proof (GetLengthPrefixedSlice_at_spec rep s l Hs) as G.
    at_step G; [|reflexivity].
    unfold handler_Delete_at. rewrite (slice_is_bytes _ _ _ Hk). at_done.
  - pose proof (GetLengthPrefixedSlice_at_spec rep s l Hs) as G.
    at_step G; [|reflexivity].
    pose proof (GetLengthPrefixedSlice_at_spec rep _ _ Hs0) as G.
    at_step G; [|reflexivity].
    unfold handler_Put_at.
    rewrite (slice_is_bytes _ _ _ Hk), (slice_is_bytes _ _ _ Hk0). at_done.
  - pose proof (GetLengthPrefixedSlice_at_spec rep s l Hs) as G.
    at_step G; [|reflexivity].
    pose proof (GetVarint_at_spec rep 64 10 _ _ Hs0) as G.
    at_varint64 G; [|reflexivity].
    pose proof (GetLengthPrefixedSlice_at_spec rep _ _ Hs1) as G.
    at_step G; [|reflexivity].
    unfold handler_Put_at.
    rewrite (slice_is_bytes _ _ _ Hk), (slice_is_bytes _ _ _ Hk0). at_done.
  - pose proof (GetLengthPrefixedSlice_at_spec rep s l Hs) as G.
    at_step G; [|reflexivity].
    pose proof (GetVarint_at_spec rep 64 10 _ _ Hs0) as G.
    at_varint64 G; [|reflexivity].
    pose proof (GetLengthPrefixedSlice_at_spec rep _ _ Hs1) as G.
    at_step G; [|reflexivity].
    unfold handler_Put_at.
    rewrite (slice_is_bytes _ _ _ Hk), (slice_is_bytes _ _ _ Hk0). at_done.
Qed.

Lemma IterateLoop_at_spec (rep : list byte) (fuel : nat) :
  (kHeader <= length rep)%nat ->
  forall (h : H) (s : SliceAt) (l : list byte) (found : Z),
  slice_is rep s l ->
  IterateLoop_at fuel rep h s found =
  match IterateLoop fuel (Count (mkWriteBatch rep)) h l found with
  | Some r => Done r
  | None => OutOfFuel
  end.
Proof.
  intros Hl. induction fuel as [|fuel IH]; intros h s l found Hs;
    pose proof (slice_is_length _ _ _ Hs) as Hlen.
  - destruct l as [|c l]; cbn [length] in Hlen; cbn [IterateLoop_at].
    + rewrite <- Hlen, Count_at_inside by trivial. cbn [Nat.eqb IterateLoop].
      destruct (negb (found =? Count (mkWriteBatch rep))); reflexivity.
    + rewrite <- Hlen. reflexivity.
  - destruct l as [|c l]; cbn [length] in Hlen; cbn [IterateLoop_at].
    + rewrite <- Hlen, Count_at_inside by trivial. cbn [Nat.eqb IterateLoop].
      destruct (negb (found =? Count (mkWriteBatch rep))); reflexivity.
    + rewrite <- Hlen. cbn [Nat.eqb IterateLoop]. cbv zeta.
      destruct (slice_is_head rep s c l Hs) as (-> & s' & -> & Hs').
      pose proof (IterateRecord_at_spec rep h c s' l Hs') as R.
      destruct (IterateRecord h c l) as [st|[h' rest]].
      * rewrite R. reflexivity.
      * destruct R as (rs & -> & Hrs & _). apply IH, Hrs.
Qed.

Lemma Iterate_at_spec (b : WriteBatch) (h : H) :
  Iterate_at b h =
  match Iterate b h with
  | Some r => Done r
  | None => OutOfFuel
  end.
Proof.
  unfold Iterate_at, Iterate. cbv zeta. cbn [size_].
  destruct (Nat.ltb_spec (length (rep_ b)) kHeader) as [|Hl]; [reflexivity|].
  unfold SliceAt_remove_prefix. cbn [size_ data_].
  destruct (Nat.leb_spec kHeader (length (rep_ b))); [|lia].
  rewrite length_skipn.
  replace (Count b) with (Count (mkWriteBatch (rep_ b)))
    by (destruct b; reflexivity).
  apply IterateLoop_at_spec; [exact Hl|].
  split; cbn [data_ size_]; [lia|]. unfold view. cbn [data_ size_].
  apply firstn_all2. rewrite length_skipn. lia.
Qed.
End AtSpec.

(** C7.  Whatever bytes the buffer holds, Iterate returns, with OK or with
    a corruption error, and it does so with every access to memory
    written out: the run on slices, in which a read of a byte outside the
    buffer, by Iterate, by a decoder or by the handler through a slice it
    is given, and a failed assertion of a slice end the run as out of
    bounds, ends with the same status and the same handler as the run on
    lists, never out of bounds and never out of fuel.  The loop needs at
    most one iteration per byte after the header.  An iteration either
    returns or calls the handler and goes on with a strict suffix of the
    input it started with: it has taken the tag byte and a non-empty run
    of the bytes after it, and nothing beyond the input. *)
Theorem Iterate_terminates_in_bounds (rep : list byte) :
  forall (H : Type) (HH : Handler H) (h : H),
  (exists (s : Status) (h' : H),
     Iterate_at (mkWriteBatch rep) h = Done (s, h') /\
     Iterate (mkWriteBatch rep) h = Some (s, h') /\
     (s = OK \/ exists msg, s = Corruption msg)) /\
  (forall (fuel : nat) (count found : Z) (input : list byte),
     (length input <= fuel)%nat ->
     exists (s : Status) (h' : H),
       IterateLoop fuel count h input found = Some (s, h')) /\
  (forall (c : byte) (input : list byte),
     (exists msg, IterateRecord h c input = inl (Corruption msg)) \/
     (exists (h' : H) (used input' : list byte),
        IterateRecord h c input = inr (h', input') /\
        used <> [] /\ input = used ++ input' /\
        (length input' < length input)%nat)) /\
  (forall (c : byte) (input : SliceAt) (l : list byte),
     slice_is rep input l ->
     (exists msg,
        IterateRecord_at rep h c input = Some (inl (Corruption msg))) \/
     (exists (h' : H) (input' : SliceAt),
        IterateRecord_at rep h c input = Some (inr (h', input')) /\
        (data_ input < data_ input')%nat /\
        (data_ input' + size_ input' = data_ input + size_ input)%nat)).
Proof.
  intros H HH h. repeat apply conj.
  - destruct (Iterate_terminates (mkWriteBatch rep) h) as (s & h' & E).
    exists s, h'. rewrite Iterate_at_spec, E.
    repeat split. destruct s; eauto.
  - intros fuel count found input Hf. apply IterateLoop_terminates, Hf.
  - intros c input.
    destruct (IterateRecord h c input) as [s|[h' input']] eqn:E.
    + left. apply IterateRecord_inl in E. destruct E as (msg & ->). eauto.
    + right. pose proof (IterateRecord_shorter _ _ _ _ _ E) as Hlt.
      apply IterateRecord_consumes in E. destruct E as (used & Hu & ->).
      exists h', used, input'. auto.
  - intros c input l Hs.
    pose proof (IterateRecord_at_spec rep h c input l Hs) as R.
    destruct (IterateRecord h c l) as [s|[h' rest]] eqn:E.
    + left. apply IterateRecord_inl in E. destruct E as (msg & ->). eauto.
    + right. destruct R as (rs & R & Hrs & He). exists h', rs.
      split; [exact R|].
      pose proof (IterateRecord_shorter _ _ _ _ _ E) as Hlt.
      pose proof (slice_is_length _ _ _ Hs) as L1.
      pose proof (slice_is_length _ _ _ Hrs) as L2.
      lia.
Qed.

(** ** C8: no atomicity *)

(** C8.  There is a buffer, three valid records followed by a byte that
    is no tag, on which Iterate returns a corruption error after it has
    called the handler three times; the calls stay made: the handler
    state that Iterate leaves holds them, and so does the index after
    InsertInto. *)
Theorem Iterate_not_atomic :
  exists (b : WriteBatch) (msg : string) (evs : list Event)
         (entries : MemTable),
    Replay b = Some (Corruption msg, evs) /\ evs <> [] /\
    InsertInto b [] None = Some (Corruption msg, entries) /\ entries <> [] /\
    length entries = length evs.
Proof.
  exists scenario_then_garbage, "unknown WriteBatch tag"%string,
    [EvPut [Byte.x61] [Byte.x31] kTypeValue 0;
     EvPut [Byte.x62] [Byte.x32] kTypeValue 0;
     EvDelete [Byte.x61]],
    [mkEntry 0 kTypeValue [Byte.x61] [Byte.x31] 0;
     mkEntry 1 kTypeValue [Byte.x62] [Byte.x32] 0;
     mkEntry 2 kTypeDeletion [Byte.x61] [] 0].
  repeat split; try discriminate; vm_compute; reflexivity.
Qed.

(** ** C9 and C5: Append *)

Lemma Append_rep (dst src : WriteBatch) :
  has_header dst ->
  rep_ (Append dst src) =
  firstn 8 (rep_ dst)
  ++ EncodeFixed32 (int_add (Count dst) (Count src))
  ++ skipn kHeader (rep_ dst) ++ skipn kHeader (rep_ src).
Proof.
  intros Hd. unfold Append. cbv zeta. cbn [rep_].
  rewrite SetCount_rep by trivial.
  rewrite <- !app_assoc. reflexivity.
Qed.

Lemma Append_header (dst src : WriteBatch) :
  has_header dst -> has_header (Append dst src).
Proof.
  unfold has_header. intros Hd. unfold Append. cbv zeta. cbn [rep_].
  rewrite length_app, SetCount_length by trivial. lia.
Qed.

Lemma Append_sequence_bytes (dst src : WriteBatch) :
  has_header dst -> firstn 8 (rep_ (Append dst src)) = firstn 8 (rep_ dst).
Proof.
  intros Hd. rewrite Append_rep by trivial.
  apply firstn_exact. rewrite length_firstn.
  unfold has_header, kHeader in Hd. lia.
Qed.

Lemma Append_records (dst src : WriteBatch) :
  has_header dst ->
  skipn kHeader (rep_ (Append dst src)) =
  skipn kHeader (rep_ dst) ++ skipn kHeader (rep_ src).
Proof.
  intros Hd. rewrite Append_rep by trivial.
  rewrite (app_assoc (firstn 8 (rep_ dst))). apply skipn_exact.
  rewrite length_app, length_firstn, EncodeFixed32_length.
  unfold has_header, kHeader in *. lia.
Qed.

Lemma Count_Append (dst src : WriteBatch) :
  has_header dst -> Count (Append dst src) = int_add (Count dst) (Count src).
Proof.
  intros Hd. unfold Count at 1. rewrite Append_rep by trivial.
  rewrite skipn_exact
    by (rewrite length_firstn; unfold has_header, kHeader in Hd; lia).
  rewrite DecodeFixed32_Encode. unfold wrap32. rewrite to_int32_mod.
  apply to_int32_idem.
Qed.

(** C9.  Append writes through [dst] only.  When [dst] and [src] are two
    batches, [src] is left as it was, and so is every other batch; the
    first 8 bytes of [dst], its sequence field, are left as they were, so
    Sequence reads the same value; the 4 bytes after them hold the new
    count; the buffer has only grown at its end. *)
Theorem Append_frame (m : Heap) (dst src : nat) :
  has_header (m dst) -> has_header (m src) -> dst <> src ->
  Append_at m dst src src = m src /\
  (forall p, p <> dst -> Append_at m dst src p = m p) /\
  firstn 8 (rep_ (Append_at m dst src dst)) = firstn 8 (rep_ (m dst)) /\
  Sequence (Append_at m dst src dst) = Sequence (m dst) /\
  firstn kHeader (rep_ (Append_at m dst src dst)) =
    firstn 8 (rep_ (m dst))
    ++ EncodeFixed32 (int_add (Count (m dst)) (Count (m src))) /\
  firstn (length (rep_ (m dst)) - kHeader)
    (skipn kHeader (rep_ (Append_at m dst src dst))) =
    skipn kHeader (rep_ (m dst)).
Proof.
  intros Hd Hs Hne.
  assert (forall p, p <> dst -> Append_at m dst src p = m p) as Hframe.
  { intros p Hp. unfold Append_at, heap_set.
    destruct (Nat.eqb_spec p dst); [contradiction | reflexivity]. }
  assert (Append_at m dst src dst = Append (m dst) (m src)) as Hdst
    by (unfold Append_at, heap_set; rewrite Nat.eqb_refl; reflexivity).
  split; [apply Hframe; auto|]. split; [exact Hframe|].
  rewrite Hdst. repeat split.
  - apply Append_sequence_bytes, Hd.
  - unfold Sequence, DecodeFixed64.
    rewrite Append_sequence_bytes by trivial. reflexivity.
  - rewrite Append_rep by trivial.
    rewrite (app_assoc (firstn 8 (rep_ (m dst)))). apply firstn_exact.
    rewrite length_app, length_firstn, EncodeFixed32_length.
    unfold has_header, kHeader in *. lia.
  - rewrite Append_records by trivial. apply firstn_exact.
    apply length_skipn.
Qed.

Lemma Append_frame_witness :
  Append_at two_batches 0%nat 1%nat 1%nat = two_batches 1%nat /\
  Sequence (Append_at two_batches 0%nat 1%nat 0%nat) = 100 /\
  Count (Append_at two_batches 0%nat 1%nat 0%nat) = 4.
Proof.
  assert (has_header (two_batches 0%nat)) as Hd
    by (unfold has_header; vm_compute; lia).
  assert (has_header (two_batches 1%nat)) as Hs
    by (unfold has_header; vm_compute; lia).
  assert (0%nat <> 1%nat) as Hne by discriminate.
  pose proof (Append_frame two_batches 0%nat 1%nat Hd Hs Hne)
    as (F1 & _ & _ & F2 & _).
  split; [exact F1|]. split; [rewrite F2|]; vm_compute; reflexivity.
Defined.

(** A record that is decoded is decoded alike when more bytes follow. *)
Lemma GetVarintLoop_app (width : Z) (n : nat) (q : list byte) :
  forall (shift result : Z) (p : list byte) (v : Z) (p' : list byte),
  GetVarintLoop width n shift result p = Some (v, p') ->
  GetVarintLoop width n shift result (p ++ q) = Some (v, p' ++ q).
Proof.
  induction n as [|n IH]; intros shift result p v p' E; [discriminate|].
  destruct p as [|b p]; [discriminate|].
  cbn [GetVarintLoop app] in *. cbv zeta in *.
  destruct (Z.testbit (byte.unsigned b) 7).
  - apply IH, E.
  - injection E as <- <-. reflexivity.
Qed.

Lemma GetLengthPrefixedSlice_app (input q : list byte) (s : Slice)
    (input' : list byte) :
  GetLengthPrefixedSlice input = Some (s, input') ->
  GetLengthPrefixedSlice (input ++ q) = Some (s, input' ++ q).
Proof.
  unfold GetLengthPrefixedSlice, GetVarint32. intros E.
  destruct (GetVarintLoop 32 5 0 0 input) as [[len rest]|] eqn:G; [|discriminate].
  rewrite (GetVarintLoop_app _ _ q _ _ _ _ _ G).
  destruct (Z.ltb_spec (Z.of_nat (length rest)) len) as [|Hlen]; [discriminate|].
  injection E as <- <-.
  rewrite length_app.
  destruct (Z.ltb_spec (Z.of_nat (length rest + length q)) len); [lia|].
  rewrite firstn_app, skipn_app.
  replace (Z.to_nat len - length rest)%nat with O by lia.
  cbn [firstn skipn]. rewrite app_nil_r. reflexivity.
Qed.

Section Append.
Context {H : Type} `{Handler H}.

Lemma IterateRecord_app (h : H) (c : byte) (input q : list byte) (h' : H)
    (input' : list byte) :
  IterateRecord h c input = inr (h', input') ->
  IterateRecord h c (input ++ q) = inr (h', input' ++ q).
Proof.
  unfold IterateRecord, GetVarint64. intros E. inv_record E.
  all: injection E as <- <-.
  all: repeat match goal with
         | Q : GetLengthPrefixedSlice _ = Some _ |- _ =>
             rewrite (GetLengthPrefixedSlice_app _ q _ _ Q); clear Q;
             cbv beta iota
         | Q : GetVarintLoop _ _ _ _ _ = Some _ |- _ =>
             rewrite (GetVarintLoop_app _ _ q _ _ _ _ _ Q); clear Q;
             cbv beta iota
         end.
  all: reflexivity.
Qed.

(** A loop that ends well on [input1] does the same work on
    [input1 ++ input2] and goes on with [input2]. *)
Lemma IterateLoop_app (fuel : nat) (count' : Z) (input2 : list byte) :
  forall (count : Z) (h : H) (input1 : list byte) (found : Z) (h1 : H)
    (fuelA fuelB : nat),
  IterateLoop fuel count h input1 found = Some (OK, h1) ->
  (length input1 <= fuel)%nat ->
  (length (input1 ++ input2) <= fuelA)%nat ->
  (length input2 <= fuelB)%nat ->
  IterateLoop fuelA count' h (input1 ++ input2) found =
  IterateLoop fuelB count' h1 input2 count.
Proof.
  induction fuel as [|fuel IH];
    intros count h input1 found h1 fuelA fuelB E Hf HA HB.
  - destruct input1; [|cbn in Hf; lia].
    apply IterateLoop_nil_OK in E. destruct E as [-> ->]. cbn [app] in *.
    apply IterateLoop_fuel; trivial.
  - destruct input1 as [|c input1].
    + apply IterateLoop_nil_OK in E. destruct E as [-> ->]. cbn [app] in *.
      apply IterateLoop_fuel; trivial.
    + cbn [IterateLoop] in E. cbv zeta in E.
      destruct (IterateRecord h c input1) as [s|[h' input']] eqn:R.
      { apply IterateRecord_inl in R. destruct R as (msg & ->).
        discriminate. }
      cbn [app length] in HA. destruct fuelA as [|fuelA]; [lia|].
      cbn [app IterateLoop]. cbv zeta.
      rewrite (IterateRecord_app _ _ _ input2 _ _ R).
      pose proof (IterateRecord_shorter _ _ _ _ _ R) as Hlt.
      cbn [length] in Hf. rewrite length_app in HA.
      eapply IH; eauto; [lia|]. rewrite length_app. lia.
Qed.

(** Counting from [d] up to [count + d] instead of from 0 up to
    [count]. *)
Lemma IterateLoop_shift (fuel : nat) (d : Z) :
  forall (count : Z) (h : H) (input : list byte) (found : Z),
  to_int32 found = found -> to_int32 count = count ->
  IterateLoop fuel (to_int32 (count + d)) h input (to_int32 (found + d)) =
  IterateLoop fuel count h input found.
Proof.
  induction fuel as [|fuel IH]; intros count h input found Hf Hc.
  - destruct input; [|reflexivity].
    rewrite !IterateLoop_nil, to_int32_shift_eqb by trivial. reflexivity.
  - destruct input as [|c input].
    + rewrite !IterateLoop_nil, to_int32_shift_eqb by trivial. reflexivity.
    + cbn [IterateLoop]. cbv zeta.
      destruct (IterateRecord h c input) as [s|[h1 input']]; [reflexivity|].
      replace (int_add (to_int32 (found + d)) 1)
        with (to_int32 (int_add found 1 + d))
        by (unfold int_add; rewrite !to_int32_add_l; f_equal; lia).
      apply IH; trivial. apply to_int32_idem.
Qed.

Lemma Iterate_Append (dst src : WriteBatch) (h h1 : H) :
  has_header dst -> has_header src ->
  Iterate dst h = Some (OK, h1) ->
  Iterate (Append dst src) h = Iterate src h1.
Proof.
  intros Hd Hs. pose proof (Append_header dst src Hd) as Ha.
  unfold Iterate. cbv zeta. unfold has_header in Hd, Hs, Ha.
  destruct (Nat.ltb_spec (length (rep_ dst)) kHeader); [lia|].
  destruct (Nat.ltb_spec (length (rep_ src)) kHeader); [lia|].
  destruct (Nat.ltb_spec (length (rep_ (Append dst src))) kHeader); [lia|].
  intros E1.
  rewrite Append_records, Count_Append by trivial.
  rewrite (IterateLoop_app _ _ _ _ _ _ _ _ _
             (length (skipn kHeader (rep_ src))) E1); trivial.
  replace (Count dst) with (to_int32 (0 + Count dst)) at 2
    by (cbn [Z.add]; apply Count_int).
  unfold int_add. rewrite (Z.add_comm (Count dst)).
  apply IterateLoop_shift; [reflexivity | apply Count_int].
Qed.
End Append.

(** C5.  On batches that hold a header, Append sets the count of [dst] to
    the sum of the two counts (the [int] sum, exact when it is in the
    range of [int]) and leaves after the header of [dst] the records of
    [dst] followed by the bytes of [src] from offset 12 on, unchanged.
    When [dst] replays without error, the result replays the calls of
    [dst] in order followed by the calls of [src] in order, and returns
    the status [src] returns; so it does on every handler. *)
Theorem Append_concatenates (dst src : WriteBatch) :
  has_header dst -> has_header src ->
  Count (Append dst src) = int_add (Count dst) (Count src) /\
  (- 2 ^ 31 <= Count dst + Count src < 2 ^ 31 ->
   Count (Append dst src) = Count dst + Count src) /\
  skipn kHeader (rep_ (Append dst src)) =
    skipn kHeader (rep_ dst) ++ skipn kHeader (rep_ src) /\
  (forall (evs1 evs2 : list Event) (s2 : Status),
     Replay dst = Some (OK, evs1) -> Replay src = Some (s2, evs2) ->
     Replay (Append dst src) = Some (s2, evs1 ++ evs2)) /\
  (forall (H : Type) (HH : Handler H) (h h1 : H),
     Iterate dst h = Some (OK, h1) ->
     Iterate (Append dst src) h = Iterate src h1).
Proof.
  intros Hd Hs. repeat split.
  - apply Count_Append, Hd.
  - intros Hr. rewrite Count_Append by trivial. apply to_int32_small, Hr.
  - apply Append_records, Hd.
  - intros evs1 evs2 s2 E1 E2. unfold Replay in *.
    rewrite (Iterate_Append dst src [] evs1) by trivial.
    rewrite Iterate_Replay. unfold Replay. rewrite E2.
    rewrite Recorder_replay. reflexivity.
  - intros H HH h h1. apply Iterate_Append; trivial.
Qed.

Lemma Append_concatenates_witness :
  Count (Append (two_batches 0%nat) (two_batches 1%nat)) = 4 /\
  Replay (Append (two_batches 0%nat) (two_batches 1%nat)) =
    Some (OK, [EvPut [Byte.x61] [Byte.x31] kTypeValue 0;
               EvPut [Byte.x62] [Byte.x32] kTypeValue 0;
               EvDelete [Byte.x61]; EvDelete [Byte.x62]]).
Proof.
  assert (has_header (two_batches 0%nat)) as Hd
    by (unfold has_header; vm_compute; lia).
  assert (has_header (two_batches 1%nat)) as Hs
    by (unfold has_header; vm_compute; lia).
  pose proof (Append_concatenates _ _ Hd Hs) as (_ & F1 & _ & F2 & _).
  split.
  - rewrite F1; [vm_compute; reflexivity|].
    vm_compute; split; [discriminate | reflexivity].
  - apply (F2 [EvPut [Byte.x61] [Byte.x31] kTypeValue 0;
               EvPut [Byte.x62] [Byte.x32] kTypeValue 0;
               EvDelete [Byte.x61]] [EvDelete [Byte.x62]] OK);
      vm_compute; reflexivity.
Defined.

(** ** C2: the sequence numbers InsertInto assigns *)

Lemma replay_inserter (evs : list Event) :
  forall i : MemTableInserter,
  mem_ (fold_left replay_event evs i) =
  mem_ i ++ number_from (options_ i) (sequence_ i) evs.
Proof.
  induction evs as [|e evs IH]; intros i; cbn [fold_left number_from].
  - symmetry. apply app_nil_r.
  - rewrite IH. destruct e as [key value type expiry|key];
      cbn [replay_event handler_Put handler_Delete MemTableInserter_Handler].
    + unfold MemTableInserter_Put, entry_of_event, expiry_policy.
      destruct (options_ i) as [o|] eqn:O;
        [destruct (expiry_module o) as [m|];
         [destruct (MemTableInserterCallback m key value type expiry)|]|];
        cbn [mem_ options_ sequence_]; unfold MemTable_Add;
        rewrite <- app_assoc; reflexivity.
    + unfold MemTableInserter_Delete, entry_of_event.
      cbn [mem_ options_ sequence_]. unfold MemTable_Add.
      rewrite <- app_assoc. reflexivity.
Qed.






(** ** C4: truncated batches *)

Lemma calls_records_app (cs1 cs2 : list Call) :
  calls_records (cs1 ++ cs2) = calls_records cs1 ++ calls_records cs2.
Proof. unfold calls_records. rewrite map_app, concat_app. reflexivity. Qed.

(** An offset inside the records that is no boundary falls after the tag
    byte and before the end of the payload of one of the records. *)
Lemma offset_in_record (cs : list Call) :
  forall off n : nat,
  (off <= n < off + length (calls_records cs))%nat ->
  ~ In n (record_boundaries off cs) ->
  exists (cs1 : list Call) (c : Call) (cs2 : list Call) (k : nat),
    cs = cs1 ++ c :: cs2 /\
    n = (off + length (calls_records cs1) + 1 + k)%nat /\
    (k < length (call_payload c))%nat.
Proof.
  induction cs as [|c cs IH]; intros off n Hn Hb.
  - cbn in Hn. lia.
  - cbn [record_boundaries] in Hb.
    assert (n <> off) as Hne by (intros ->; apply Hb; left; reflexivity).
    assert (~ In n (record_boundaries (off + length (call_record c)) cs))
      as Hb' by (intros Hin; apply Hb; right; exact Hin).
    unfold calls_records in Hn. cbn [map concat] in Hn.
    rewrite length_app in Hn. fold (calls_records cs) in Hn.
    destruct (Nat.lt_ge_cases n (off + length (call_record c))) as [Hlt|Hge].
    + exists [], c, cs, (n - off - 1)%nat.
      unfold call_record in Hlt. cbn [length] in Hlt.
      cbn [app calls_records map concat length]. repeat split; lia.
    + destruct (IH (off + length (call_record c))%nat n) as
        (cs1 & c' & cs2 & k & -> & Hk & Hp); [lia | exact Hb' |].
      exists (c :: cs1), c', cs2, k. repeat split; trivial.
      unfold calls_records in *. cbn [map concat]. rewrite length_app. lia.
Qed.

Lemma do_calls_fresh_rep (cs : list Call) :
  rep_ (do_calls fresh cs) =
  firstn kHeader (rep_ (do_calls fresh cs)) ++ calls_records cs.
Proof.
  rewrite <- (firstn_skipn kHeader (rep_ (do_calls fresh cs))) at 1.
  rewrite records_do_calls, fresh_records by apply fresh_header.
  reflexivity.
Qed.

Lemma do_calls_fresh_length (cs : list Call) :
  length (rep_ (do_calls fresh cs)) = (kHeader + length (calls_records cs))%nat.
Proof.
  pose proof (do_calls_header cs fresh fresh_header) as Hh.
  unfold has_header in Hh.
  rewrite do_calls_fresh_rep, length_app, length_firstn. lia.
Qed.

Section Truncation.
Context {H : Type} `{Handler H}.

Lemma IterateLoop_cons_inl (fuel : nat) (count : Z) (h : H) (c : byte)
    (input : list byte) (found : Z) (s : Status) :
  IterateRecord h c input = inl s -> (0 < fuel)%nat ->
  IterateLoop fuel count h (c :: input) found = Some (s, h).
Proof.
  intros E Hf. destruct fuel as [|fuel]; [lia|].
  cbn [IterateLoop]. cbv zeta. rewrite E. reflexivity.
Qed.

Lemma Iterate_truncated_record (cs1 cs2 : list Call) (c : Call) (k : nat)
    (h : H) :
  Forall call_ok cs1 -> call_ok c -> (k < length (call_payload c))%nat ->
  exists msg,
    Iterate
      (mkWriteBatch
         (firstn (kHeader + length (calls_records cs1) + 1 + k)
            (rep_ (do_calls fresh (cs1 ++ c :: cs2))))) h =
    Some (Corruption msg, fold_left replay_event (map call_event cs1) h).
Proof.
  intros Hok1 Hc Hk.
  set (b := do_calls fresh (cs1 ++ c :: cs2)).
  pose proof (do_calls_header (cs1 ++ c :: cs2) fresh fresh_header) as Hh.
  fold b in Hh. unfold has_header in Hh.
  assert (length (firstn kHeader (rep_ b)) = kHeader) as Hl
    by (rewrite length_firstn; lia).
  assert (firstn (kHeader + length (calls_records cs1) + 1 + k) (rep_ b) =
          firstn kHeader (rep_ b)
          ++ calls_records cs1 ++ call_tag c :: firstn k (call_payload c))
    as Ht.
  { unfold b at 1. rewrite do_calls_fresh_rep. fold b.
    rewrite calls_records_app.
    replace (kHeader + length (calls_records cs1) + 1 + k)%nat
      with (length (firstn kHeader (rep_ b))
            + (length (calls_records cs1) + S k))%nat by lia.
    rewrite firstn_app_2, firstn_app_2. f_equal. f_equal.
    unfold calls_records at 1. cbn [map concat].
    unfold call_record. cbn [app firstn]. f_equal.
    rewrite firstn_app.
    replace (k - length (call_payload c))%nat with O by lia.
    cbn [firstn]. apply app_nil_r. }
  rewrite Ht.
  destruct (IterateRecord_truncated
              (fold_left replay_event (map call_event cs1) h) c k Hc Hk)
    as (msg & E).
  exists msg. unfold Iterate. cbv zeta. cbn [rep_].
  rewrite length_app, Hl.
  destruct (Nat.ltb_spec
              (kHeader + length (calls_records cs1 ++
                                 call_tag c :: firstn k (call_payload c)))
              kHeader); [lia|].
  rewrite skipn_exact by exact Hl.
  rewrite IterateLoop_calls; trivial.
  apply IterateLoop_cons_inl; [exact E|].
  rewrite length_app. cbn [length]. lia.
Qed.
End Truncation.

(** C4 (as amended).  For every batch built on a fresh batch by Delete
    calls and by Put calls with a value-bearing type (keys and values
    short enough for the varint32 length prefix, expiry and clock values
    in [uint64_t]), and for every offset from 12 on, below the length of
    the buffer, that is not the offset at which a record starts or ends,
    Iterate on the buffer cut at that offset returns a corruption error;
    the calls it has made on the handler by then are the first calls of
    the batch, in order and as Iterate makes them on the whole batch. *)
Theorem truncated_batch_is_corrupt (cs : list Call) (n : nat) :
  Forall call_ok cs ->
  (kHeader <= n < length (rep_ (do_calls fresh cs)))%nat ->
  ~ In n (record_boundaries kHeader cs) ->
  forall (H : Type) (HH : Handler H) (h : H),
  exists (msg : string) (j : nat),
    Iterate (mkWriteBatch (firstn n (rep_ (do_calls fresh cs)))) h =
    Some (Corruption msg,
          fold_left replay_event (map call_event (firstn j cs)) h).
Proof.
  intros Hok Hn Hb H HH h.
  rewrite do_calls_fresh_length in Hn.
  destruct (offset_in_record cs kHeader n Hn Hb)
    as (cs1 & c & cs2 & k & -> & -> & Hk).
  apply Forall_app in Hok. destruct Hok as [Hok1 Hok2].
  inversion Hok2 as [|? ? Hc _]; subst.
  destruct (Iterate_truncated_record cs1 cs2 c k h Hok1 Hc Hk) as (msg & E).
  exists msg, (length cs1). rewrite E.
  rewrite firstn_app, firstn_all, Nat.sub_diag. cbn [firstn].
  rewrite app_nil_r. reflexivity.
Qed.

Lemma truncated_batch_is_corrupt_witness :
  exists (msg : string) (j : nat),
    Iterate (mkWriteBatch (firstn 14 (rep_ (do_calls fresh calls_with_expiry))))
      ([] : list Event) =
    Some (Corruption msg,
          fold_left replay_event (map call_event (firstn j calls_with_expiry)) []).
Proof.
  assert (kHeader <= 14 < length (rep_ (do_calls fresh calls_with_expiry)))%nat
    as Hn by (vm_compute; lia).
  assert (~ In 14%nat (record_boundaries kHeader calls_with_expiry)) as Hb
    by (vm_compute; lia).
  exact (truncated_batch_is_corrupt calls_with_expiry 14
           calls_with_expiry_ok Hn Hb (list Event) Recorder []).
Defined.

(** C4 as stated fails: the record of a Put of the Deletion type takes the
    offsets 12 to 16; cut at offset 15, inside it, the buffer is replayed
    as a delete of the key and Iterate returns OK. *)
Lemma truncated_put_of_deletion_is_accepted :
  (kHeader <= 15 < length (rep_ (do_calls fresh put_of_deletion)))%nat /\
  record_boundaries kHeader put_of_deletion = [12%nat; 16%nat] /\
  ~ In 15%nat (record_boundaries kHeader put_of_deletion) /\
  Iterate (mkWriteBatch (firstn 15 (rep_ (do_calls fresh put_of_deletion))))
    ([] : list Event) =
  Some (OK, [EvDelete [Byte.x61]]).
Proof.
  split; [vm_compute; lia|]. split; [reflexivity|].
  split; [vm_compute; lia|]. vm_compute. reflexivity.
Qed.

(** * Further properties of the batch *)

(** ** The header fields *)

Lemma SetSequence_rep (b : WriteBatch) (s : SequenceNumber) :
  rep_ (SetSequence b s) = EncodeFixed64 s ++ skipn 8 (rep_ b).
Proof. reflexivity. Qed.

Lemma SetSequence_length (b : WriteBatch) (s : SequenceNumber) :
  has_header b -> length (rep_ (SetSequence b s)) = length (rep_ b).
Proof.
  unfold has_header, kHeader. intros Hb.
  rewrite SetSequence_rep, length_app, EncodeFixed64_length, length_skipn. lia.
Qed.

Lemma SetSequence_records (b : WriteBatch) (s : SequenceNumber) :
  skipn kHeader (rep_ (SetSequence b s)) = skipn kHeader (rep_ b).
Proof.
  rewrite SetSequence_rep. unfold kHeader.
  rewrite skipn_app, EncodeFixed64_length, skipn_all2
    by (rewrite EncodeFixed64_length; lia).
  cbn [app]. rewrite skipn_skipn. reflexivity.
Qed.

Lemma Count_SetSequence (b : WriteBatch) (s : SequenceNumber) :
  Count (SetSequence b s) = Count b.
Proof.
  unfold Count. rewrite SetSequence_rep.
  rewrite skipn_exact by apply EncodeFixed64_length. reflexivity.
Qed.

Lemma Sequence_SetSequence (b : WriteBatch) (s : SequenceNumber) :
  Sequence (SetSequence b s) = wrap64 s.
Proof.
  unfold Sequence. rewrite SetSequence_rep. apply DecodeFixed64_Encode.
Qed.

(** X1.  Clear leaves, whatever the batch held, a buffer of exactly the 12
    header bytes with count 0 and sequence 0; Iterate on it returns OK
    without calling the handler, and InsertInto leaves the index as it
    was. *)
Theorem Clear_resets (b : WriteBatch) :
  length (rep_ (Clear b)) = kHeader /\
  Count (Clear b) = 0 /\
  Sequence (Clear b) = 0 /\
  (forall (H : Type) (HH : Handler H) (h : H),
     Iterate (Clear b) h = Some (OK, h)) /\
  (forall (mem : MemTable) (options : option Options),
     InsertInto (Clear b) mem options = Some (OK, mem)).
Proof.
  repeat apply conj; reflexivity.
Qed.



(** X3.  On a batch that holds a header, SetSequence stores the sequence
    number that Sequence reads back (modulo 2^64, the value itself when
    it is a [uint64_t]), and changes nothing else: the length, the count
    and the records are as before, and Iterate does on every handler what
    it did before. *)
Theorem SetSequence_frame (b : WriteBatch) (s : SequenceNumber) :
  has_header b ->
  Sequence (SetSequence b s) = wrap64 s /\
  (in_u64 s -> Sequence (SetSequence b s) = s) /\
  length (rep_ (SetSequence b s)) = length (rep_ b) /\
  Count (SetSequence b s) = Count b /\
  skipn 8 (rep_ (SetSequence b s)) = skipn 8 (rep_ b) /\
  (forall (H : Type) (HH : Handler H) (h : H),
     Iterate (SetSequence b s) h = Iterate b h).
Proof.
  intros Hb. repeat apply conj.
  - apply Sequence_SetSequence.
  - intros Hs. rewrite Sequence_SetSequence. unfold wrap64.
    apply Z.mod_small, Hs.
  - apply SetSequence_length, Hb.
  - apply Count_SetSequence.
  - rewrite SetSequence_rep. apply skipn_exact, EncodeFixed64_length.
  - intros H HH h. unfold Iterate. cbv zeta.
    rewrite SetSequence_length by trivial.
    rewrite SetSequence_records, Count_SetSequence. reflexivity.
Qed.

Lemma SetSequence_frame_witness :
  Sequence (SetSequence scenario 100) = 100 /\
  Count (SetSequence scenario 100) = Count scenario.
Proof.
  assert (has_header scenario) as Hb by (unfold has_header; vm_compute; lia).
  assert (in_u64 100) as Hs by (unfold in_u64; lia).
  destruct (SetSequence_frame scenario 100 Hb) as (_ & F1 & _ & F2 & _).
  split; [exact (F1 Hs) | exact F2].
Defined.

(** X4.  On a batch that holds a header, SetCount stores the count that
    Count reads back (as an [int]) and changes nothing else: the length,
    the first 8 bytes, hence the sequence number, and the records are as
    before. *)
Theorem SetCount_frame (b : WriteBatch) (n : Z) :
  has_header b ->
  Count (SetCount b n) = to_int32 n /\
  (- 2 ^ 31 <= n < 2 ^ 31 -> Count (SetCount b n) = n) /\
  length (rep_ (SetCount b n)) = length (rep_ b) /\
  firstn 8 (rep_ (SetCount b n)) = firstn 8 (rep_ b) /\
  Sequence (SetCount b n) = Sequence b /\
  skipn kHeader (rep_ (SetCount b n)) = skipn kHeader (rep_ b).
Proof.
  intros Hb. repeat apply conj.
  - apply Count_SetCount, Hb.
  - intros Hn. rewrite Count_SetCount by trivial. apply to_int32_small, Hn.
  - apply SetCount_length, Hb.
  - apply SetCount_sequence_bytes, Hb.
  - apply Sequence_SetCount, Hb.
  - apply SetCount_records, Hb.
Qed.

Lemma SetCount_frame_witness :
  Count (SetCount scenario 7) = 7 /\
  Sequence (SetCount scenario 7) = Sequence scenario.
Proof.
  assert (has_header scenario) as Hb by (unfold has_header; vm_compute; lia).
  destruct (SetCount_frame scenario 7 Hb) as (_ & F1 & _ & _ & F2 & _).
  split; [apply F1; lia | exact F2].
Defined.

(** X5.  The buffer holds a header at all times: Clear gives one, and
    Put, Delete, SetCount, SetSequence and Append (on its destination) keep
    it; SetContents gives one exactly when the contents have at least 12
    bytes, which is what it asserts. *)
Theorem header_invariant (b src : WriteBatch) :
  has_header (Clear b) /\
  (has_header b ->
   (forall (now : ExpiryTime) (key value : Slice) (meta : option KeyMetaData),
      has_header (Put now b key value meta)) /\
   (forall key : Slice, has_header (Delete b key)) /\
   (forall n : Z, has_header (SetCount b n)) /\
   (forall s : SequenceNumber, has_header (SetSequence b s)) /\
   has_header (Append b src)) /\
  (forall contents : Slice,
     has_header (SetContents b contents) <-> (kHeader <= length contents)%nat).
Proof.
  split; [apply fresh_header|]. split.
  - intros Hb. repeat apply conj.
    + intros now key value meta.
      apply (do_call_header b (CallPut now key value meta) Hb).
    + intros key. apply (do_call_header b (CallDelete key) Hb).
    + intros n. unfold has_header. rewrite SetCount_length; trivial.
    + intros s. unfold has_header. rewrite SetSequence_length; trivial.
    + apply Append_header, Hb.
  - intros contents. unfold has_header, SetContents. cbn [rep_]. reflexivity.
Qed.

(** ** The bytes of a batch *)

Lemma EncodeFixed32_to_int32 (n : Z) :
  EncodeFixed32 (to_int32 n) = EncodeFixed32 n.
Proof.
  unfold EncodeFixed32, wrap32. rewrite to_int32_wrap. reflexivity.
Qed.

Lemma EncodeFixed32_int_add (a b : Z) :
  EncodeFixed32 (int_add (to_int32 a) (to_int32 b)) = EncodeFixed32 (a + b).
Proof.
  unfold int_add. rewrite EncodeFixed32_to_int32.
  unfold EncodeFixed32, wrap32. f_equal.
  rewrite Z.add_mod, !to_int32_wrap, <- Z.add_mod by lia. reflexivity.
Qed.

(** The four bytes at offset 8 are the encoding of what Count reads. *)
Lemma count_bytes (b : WriteBatch) :
  has_header b -> firstn 4 (skipn 8 (rep_ b)) = EncodeFixed32 (Count b).
Proof.
  unfold has_header, kHeader. intros Hb.
  unfold Count. rewrite EncodeFixed32_to_int32.
  unfold EncodeFixed32, DecodeFixed32, wrap32.
  set (l := firstn 4 (skipn 8 (rep_ b))).
  assert (length l = 4%nat) as Hl
    by (unfold l; rewrite length_firstn, length_skipn; lia).
  pose proof (le_combine_bound l) as B. rewrite Hl in B.
  rewrite Z.mod_small by (change (2 ^ 32) with (2 ^ (8 * Z.of_nat 4)); lia).
  replace (le_split 4 (le_combine l)) with (le_split (length l) (le_combine l))
    by (rewrite Hl; reflexivity).
  symmetry. apply split_le_combine.
Qed.

Lemma rep_fields (b : WriteBatch) :
  has_header b ->
  rep_ b = firstn 8 (rep_ b) ++ EncodeFixed32 (Count b) ++ skipn kHeader (rep_ b).
Proof.
  intros Hb. rewrite <- count_bytes by trivial.
  rewrite <- (firstn_skipn 8 (rep_ b)) at 1. f_equal.
  rewrite <- (firstn_skipn 4 (skipn 8 (rep_ b))) at 1. f_equal.
  rewrite skipn_skipn. reflexivity.
Qed.

Lemma sequence_bytes_do_calls (cs : list Call) :
  forall b, has_header b ->
  firstn 8 (rep_ (do_calls b cs)) = firstn 8 (rep_ b).
Proof.
  induction cs as [|c cs IH]; intros b Hb; [reflexivity|].
  cbn [do_calls fold_left]. fold (do_calls (do_call b c) cs).
  rewrite IH by (apply do_call_header, Hb).
  rewrite do_call_rep, firstn_app, SetCount_length by trivial.
  replace (8 - length (rep_ b))%nat with O
    by (unfold has_header, kHeader in Hb; lia).
  cbn [firstn]. rewrite app_nil_r. apply SetCount_sequence_bytes, Hb.
Qed.

(** X6.  Put and Delete only append: on a batch that holds a header, a
    call leaves the first 8 bytes, hence the sequence number, as they
    were, keeps the records already in the buffer in place and adds the
    bytes of one record after them; the buffer grows by the length of
    that record, which is at least 2. *)
Theorem calls_append_only (b : WriteBatch) (c : Call) :
  has_header b ->
  firstn 8 (rep_ (do_call b c)) = firstn 8 (rep_ b) /\
  Sequence (do_call b c) = Sequence b /\
  skipn kHeader (rep_ (do_call b c)) =
    skipn kHeader (rep_ b) ++ call_record c /\
  length (rep_ (do_call b c)) = (length (rep_ b) + length (call_record c))%nat /\
  (2 <= length (call_record c))%nat.
Proof.
  intros Hb. repeat apply conj.
  - apply (sequence_bytes_do_calls [c] b Hb).
  - apply Sequence_do_call, Hb.
  - apply records_do_call, Hb.
  - rewrite do_call_rep, length_app, SetCount_length by trivial. reflexivity.
  - unfold call_record. cbn [length].
    assert (forall s, 1 <= length (PutLengthPrefixedSlice [] s))%nat as L.
    { intros s. unfold PutLengthPrefixedSlice, PutVarint32. cbn [app].
      rewrite length_app.
      destruct (EncodeVarint 4 (wrap32 (Z.of_nat (length s)))) eqn:E;
        [|cbn [length]; lia].
      cbn [EncodeVarint] in E.
      destruct (wrap32 (Z.of_nat (length s)) <? 128); discriminate. }
    destruct c as [now key value meta|key]; cbn [call_payload].
    + rewrite length_app. pose proof (L key). lia.
    + pose proof (L key). lia.
Qed.

Lemma calls_append_only_witness :
  Sequence (do_call (SetSequence scenario 100) (CallDelete [Byte.x62])) =
  Sequence (SetSequence scenario 100).
Proof.
  assert (has_header (SetSequence scenario 100)) as Hb
    by (unfold has_header; vm_compute; lia).
  exact (proj1 (proj2
    (calls_append_only (SetSequence scenario 100) (CallDelete [Byte.x62]) Hb))).
Defined.

Lemma do_calls_fresh_bytes (cs : list Call) :
  rep_ (do_calls fresh cs) =
  repeat Byte.x00 8
  ++ EncodeFixed32 (Z.of_nat (length cs))
  ++ calls_records cs.
Proof.
  pose proof (do_calls_header cs fresh fresh_header) as Hh.
  rewrite (rep_fields _ Hh).
  rewrite sequence_bytes_do_calls, records_do_calls, fresh_records
    by apply fresh_header.
  rewrite Count_do_calls, Count_fresh by apply fresh_header.
  rewrite EncodeFixed32_to_int32. reflexivity.
Qed.

(** X7.  The buffer that k calls build on a fresh batch is 8 zero bytes,
    the count k as 4 little-endian bytes, and the records of the calls in
    the order of the calls; its length is 12 plus the lengths of the
    records. *)
Theorem batch_wire_format (cs : list Call) :
  rep_ (do_calls fresh cs) =
    repeat Byte.x00 8
    ++ EncodeFixed32 (Z.of_nat (length cs))
    ++ calls_records cs /\
  length (rep_ (do_calls fresh cs)) =
    (kHeader + length (calls_records cs))%nat.
Proof.
  split; [apply do_calls_fresh_bytes | apply do_calls_fresh_length].
Qed.

(** X8.  Appending a batch built by calls to a batch built by calls gives
    the very batch that all the calls build, those of the destination
    first. *)
Theorem Append_of_calls (cs1 cs2 : list Call) :
  Append (do_calls fresh cs1) (do_calls fresh cs2) = do_calls fresh (cs1 ++ cs2).
Proof.
  apply WriteBatch_eq.
  pose proof (do_calls_header cs1 fresh fresh_header) as H1.
  rewrite Append_rep by trivial.
  rewrite !records_do_calls, fresh_records by apply fresh_header.
  rewrite sequence_bytes_do_calls by apply fresh_header.
  rewrite !Count_do_calls, Count_fresh by apply fresh_header.
  rewrite EncodeFixed32_int_add, do_calls_fresh_bytes.
  rewrite calls_records_app, length_app, Nat2Z.inj_add. reflexivity.
Qed.

(** ** Append as an operation on batches *)

Lemma int_add_assoc (a b c : Z) :
  int_add (int_add a b) c = int_add a (int_add b c).
Proof.
  unfold int_add. rewrite to_int32_add_l.
  rewrite (Z.add_comm a (to_int32 (b + c))), to_int32_add_l.
  f_equal. lia.
Qed.

(** X9.  Append is associative on batches that hold a header: merging
    [b] into [a] and then [c] gives the same bytes as merging [c] into
    [b] first and the result into [a]. *)
Theorem Append_assoc (a b c : WriteBatch) :
  has_header a -> has_header b ->
  Append (Append a b) c = Append a (Append b c).
Proof.
  intros Ha Hb. apply WriteBatch_eq.
  pose proof (Append_header a b Ha) as Hab.
  rewrite (Append_rep (Append a b) c Hab), (Append_rep a (Append b c) Ha).
  rewrite Append_sequence_bytes, !Append_records, !Count_Append by trivial.
  rewrite int_add_assoc, <- !app_assoc. reflexivity.
Qed.

Lemma Append_assoc_witness :
  Append (Append scenario (two_batches 1%nat)) scenario =
  Append scenario (Append (two_batches 1%nat) scenario).
Proof.
  assert (has_header scenario) as Ha by (unfold has_header; vm_compute; lia).
  assert (has_header (two_batches 1%nat)) as Hb
    by (unfold has_header; vm_compute; lia).
  exact (Append_assoc scenario (two_batches 1%nat) scenario Ha Hb).
Defined.

(** X10.  Appending a cleared batch changes nothing: on a batch that holds
    a header, Append with a source that has just been cleared gives the
    batch back, byte for byte. *)
Theorem Append_cleared (b src : WriteBatch) :
  has_header b -> Append b (Clear src) = b.
Proof.
  intros Hb. apply WriteBatch_eq.
  rewrite Append_rep by trivial.
  change (skipn kHeader (rep_ (Clear src))) with (@nil byte).
  change (Count (Clear src)) with 0.
  unfold int_add. rewrite Z.add_0_r, EncodeFixed32_to_int32, app_nil_r.
  symmetry. apply rep_fields, Hb.
Qed.

Lemma Append_cleared_witness :
  Append (SetSequence scenario 100) (Clear scenario) = SetSequence scenario 100.
Proof.
  assert (has_header (SetSequence scenario 100)) as Hb
    by (unfold has_header; vm_compute; lia).
  exact (Append_cleared (SetSequence scenario 100) scenario Hb).
Defined.

(** ** What Iterate reports *)

Lemma tag_of_byte_unknown (c : byte) :
  3 < byte.unsigned c -> tag_of_byte c = None.
Proof.
  intros Hc. unfold tag_of_byte. cbv zeta. cbn [ValueType_code].
  destruct (Z.eqb_spec (byte.unsigned c) 1); [lia|].
  destruct (Z.eqb_spec (byte.unsigned c) 0); [lia|].
  destruct (Z.eqb_spec (byte.unsigned c) 2); [lia|].
  destruct (Z.eqb_spec (byte.unsigned c) 3); [lia|].
  reflexivity.
Qed.

Section Reports.
Context {H : Type} `{Handler H}.

Lemma Iterate_records (header : list byte) (cs : list Call)
    (rest : list byte) (h : H) :
  length header = kHeader -> Forall call_ok cs ->
  Iterate (mkWriteBatch (header ++ calls_records cs ++ rest)) h =
  IterateLoop (length rest) (Count (mkWriteBatch header))
    (fold_left replay_event (map call_event cs) h) rest
    (to_int32 (Z.of_nat (length cs))).
Proof.
  intros Hh Hok. unfold Iterate. cbv zeta. cbn [rep_].
  rewrite length_app, Hh.
  destruct (Nat.ltb_spec (kHeader + length (calls_records cs ++ rest)) kHeader);
    [lia|].
  rewrite skipn_exact by exact Hh.
  rewrite Count_app by lia.
  rewrite IterateLoop_calls; trivial.
  apply IterateLoop_fuel; rewrite ?length_app; lia.
Qed.
End Reports.

(** X11.  A byte that is none of the four tags, met where a record should
    start, ends Iterate with the corruption error "unknown tag", whatever
    follows it and whatever the header says; the handler has been called
    for the records before it, in order. *)
Theorem Iterate_unknown_tag (header : list byte) (cs : list Call) (c : byte)
    (rest : list byte) :
  length header = kHeader -> Forall call_ok cs -> 3 < byte.unsigned c ->
  forall (H : Type) (HH : Handler H) (h : H),
    Iterate (mkWriteBatch (header ++ calls_records cs ++ c :: rest)) h =
    Some (Corruption "unknown WriteBatch tag",
          fold_left replay_event (map call_event cs) h).
Proof.
  intros Hh Hok Hc H HH h.
  rewrite Iterate_records by trivial.
  apply IterateLoop_cons_inl; [|cbn [length]; lia].
  unfold IterateRecord. rewrite tag_of_byte_unknown by trivial. reflexivity.
Qed.

Lemma Iterate_unknown_tag_witness :
  Iterate
    (mkWriteBatch
       (repeat Byte.x00 12 ++ calls_records calls_with_expiry
        ++ Byte.x04 :: [Byte.x01; Byte.x61]))
    ([] : list Event) =
  Some (Corruption "unknown WriteBatch tag",
        fold_left replay_event (map call_event calls_with_expiry) []).
Proof.
  assert (length (repeat Byte.x00 12) = kHeader) as Hh by reflexivity.
  assert (3 < byte.unsigned Byte.x04) as Hc by (vm_compute; reflexivity).
  exact (Iterate_unknown_tag (repeat Byte.x00 12) calls_with_expiry Byte.x04
           [Byte.x01; Byte.x61] Hh calls_with_expiry_ok Hc
           (list Event) Recorder []).
Defined.

(** X12.  On a header followed by the records of k calls and nothing
    else, Iterate calls the handler for all of them, in order, and only
    then compares k with the count of the header: it returns OK when they
    agree as [int]s and the corruption error "wrong count" otherwise, the
    calls being made in both cases. *)
Theorem Iterate_checks_count_last (header : list byte) (cs : list Call) :
  length header = kHeader -> Forall call_ok cs ->
  forall (H : Type) (HH : Handler H) (h : H),
    Iterate (mkWriteBatch (header ++ calls_records cs)) h =
    Some (if to_int32 (Z.of_nat (length cs)) =? Count (mkWriteBatch header)
          then OK else Corruption "WriteBatch has wrong count",
          fold_left replay_event (map call_event cs) h).
Proof.
  intros Hh Hok H HH h.
  rewrite <- (app_nil_r (calls_records cs)).
  rewrite Iterate_records, IterateLoop_nil by trivial.
  destruct (to_int32 (Z.of_nat (length cs)) =? Count (mkWriteBatch header));
    reflexivity.
Qed.

Lemma Iterate_checks_count_last_witness :
  Iterate (mkWriteBatch (repeat Byte.x00 12 ++ calls_records calls_with_expiry))
    ([] : list Event) =
  Some (Corruption "WriteBatch has wrong count",
        fold_left replay_event (map call_event calls_with_expiry) []).
Proof.
  assert (length (repeat Byte.x00 12) = kHeader) as Hh by reflexivity.
  exact (Iterate_checks_count_last (repeat Byte.x00 12) calls_with_expiry
           Hh calls_with_expiry_ok (list Event) Recorder []).
Defined.

(** ** The calls Iterate makes, counted *)

Lemma IterateLoop_count (fuel : nat) :
  forall (count : Z) (input : list byte) (found : Z) (evs : list Event),
  to_int32 found = found ->
  IterateLoop (H := list Event) fuel count [] input found = Some (OK, evs) ->
  count = to_int32 (found + Z.of_nat (length evs)).
Proof.
  induction fuel as [|fuel IH]; intros count input found evs Hf E.
  - destruct input; [|discriminate].
    apply IterateLoop_nil_OK in E. destruct E as [-> ->].
    cbn [length Z.of_nat]. rewrite Z.add_0_r. symmetry. exact Hf.
  - destruct input as [|c input].
    + apply IterateLoop_nil_OK in E. destruct E as [-> ->].
      cbn [length Z.of_nat]. rewrite Z.add_0_r. symmetry. exact Hf.
    + cbn [IterateLoop] in E. cbv zeta in E.
      destruct (IterateRecord [] c input) as [s|[new input']] eqn:R.
      { apply IterateRecord_inl in R. destruct R as (msg & ->). discriminate. }
      apply IterateRecord_event in R. destruct R as (e & -> & _).
      rewrite IterateLoop_Recorder_from in E.
      destruct (IterateLoop fuel count [] input' (int_add found 1))
        as [[s' evs']|] eqn:L; [|discriminate].
      injection E as -> <-.
      apply IH in L; [|apply to_int32_idem].
      rewrite L. unfold int_add. rewrite to_int32_add_l.
      f_equal. cbn [app length]. lia.
Qed.

Lemma IterateLoop_calls_bound (fuel : nat) :
  forall (count : Z) (input : list byte) (found : Z) (s : Status)
    (evs : list Event),
  IterateLoop (H := list Event) fuel count [] input found = Some (s, evs) ->
  (2 * length evs <= length input)%nat.
Proof.
  induction fuel as [|fuel IH]; intros count input found s evs E.
  - destruct input; [|discriminate].
    rewrite IterateLoop_nil in E.
    destruct (negb (found =? count)); injection E as _ <-; cbn; lia.
  - destruct input as [|c input].
    + rewrite IterateLoop_nil in E.
      destruct (negb (found =? count)); injection E as _ <-; cbn; lia.
    + cbn [IterateLoop] in E. cbv zeta in E.
      destruct (IterateRecord [] c input) as [s'|[new input']] eqn:R.
      { injection E as _ <-. cbn. lia. }
      pose proof (IterateRecord_shorter _ _ _ _ _ R) as Hlt.
      apply IterateRecord_event in R. destruct R as (e & -> & _).
      rewrite IterateLoop_Recorder_from in E.
      destruct (IterateLoop fuel count [] input' (int_add found 1))
        as [[s' evs']|] eqn:L; [|discriminate].
      injection E as _ <-. apply IH in L.
      cbn [app length]. lia.
Qed.

(** X14.  When Iterate returns OK, the number of calls it has made on the
    handler is the count of the header: Count reads the [int] of that
    number. *)
Theorem Iterate_OK_count (b : WriteBatch) (evs : list Event) :
  Replay b = Some (OK, evs) -> Count b = to_int32 (Z.of_nat (length evs)).
Proof.
  unfold Replay, Iterate. cbv zeta.
  destruct (length (rep_ b) <? kHeader)%nat; [discriminate|].
  intros E. apply IterateLoop_count in E; [exact E | reflexivity].
Qed.

Lemma Iterate_OK_count_witness :
  Count scenario =
  to_int32 (Z.of_nat (length [EvPut [Byte.x61] [Byte.x31] kTypeValue 0;
                              EvPut [Byte.x62] [Byte.x32] kTypeValue 0;
                              EvDelete [Byte.x61]])).
Proof.
  apply (Iterate_OK_count scenario). vm_compute. reflexivity.
Defined.

(** X15.  Whatever the buffer holds and whatever status Iterate returns,
    it has made at most one call on the handler for every two bytes that
    follow the header: a record takes its tag byte and at least one byte
    more. *)
Theorem Iterate_calls_bound (b : WriteBatch) (s : Status) (evs : list Event) :
  Replay b = Some (s, evs) ->
  (2 * length evs <= length (rep_ b) - kHeader)%nat.
Proof.
  unfold Replay, Iterate. cbv zeta.
  destruct (length (rep_ b) <? kHeader)%nat.
  - intros E. injection E as _ <-. cbn. lia.
  - intros E. apply IterateLoop_calls_bound in E.
    rewrite length_skipn in E. exact E.
Qed.

Lemma Iterate_calls_bound_witness :
  (2 * length [EvPut [Byte.x61] [Byte.x31] kTypeValue 0%Z;
               EvPut [Byte.x62] [Byte.x32] kTypeValue 0%Z;
               EvDelete [Byte.x61]]
   <= length (rep_ scenario_then_garbage) - kHeader)%nat.
Proof.
  apply (Iterate_calls_bound scenario_then_garbage
           (Corruption "unknown WriteBatch tag")).
  vm_compute. reflexivity.
Defined.

(** X16.  Whatever handler Iterate runs on and whatever the buffer holds,
    the state it leaves is the state the handler started in after a list
    of calls, in order, none of which is a put of the Deletion type and
    all of which have expiry 0 when they are puts of the plain Value
    type. *)
Theorem Iterate_calls_shape (b : WriteBatch) :
  forall (H : Type) (HH : Handler H) (h : H),
  exists (s : Status) (evs : list Event),
    Iterate b h = Some (s, fold_left replay_event evs h) /\
    Forall event_of_Iterate evs.
Proof.
  intros H HH h.
  destruct (Iterate_terminates b ([] : list Event)) as (s & evs & E).
  exists s, evs. split.
  - rewrite Iterate_Replay. unfold Replay. rewrite E. reflexivity.
  - apply (Replay_events b s evs E).
Qed.

(** ** Put and the clock *)

(** X17.  Put reads the clock only for the write-time-expiry type with
    expiry 0: for every other type, for a non-zero expiry and for no
    meta data at all, the bytes it writes are the same whatever the clock
    reads. *)
Theorem Put_clock_independent (now1 now2 : ExpiryTime) (b : WriteBatch)
    (key value : Slice) (m : KeyMetaData) :
  (m_Type m = kTypeValueWriteTime -> m_Expiry m <> 0) ->
  Put now1 b key value (Some m) = Put now2 b key value (Some m) /\
  Put now1 b key value None = Put now2 b key value None.
Proof.
  intros Hm. split; [|reflexivity].
  unfold Put. cbv zeta.
  replace (resolved_expiry now1 m) with (resolved_expiry now2 m); trivial.
  unfold resolved_expiry. destruct m as [t e]. cbn [m_Type m_Expiry] in *.
  destruct t; trivial.
  destruct (Z.eqb_spec 0 e) as [<-|]; [|reflexivity].
  exfalso. apply Hm; reflexivity.
Qed.

Lemma Put_clock_independent_witness :
  Put 7 fresh [Byte.x61] [Byte.x31] (Some (mkKeyMetaData kTypeValueWriteTime 5)) =
  Put 9 fresh [Byte.x61] [Byte.x31] (Some (mkKeyMetaData kTypeValueWriteTime 5)).
Proof.
  assert (m_Type (mkKeyMetaData kTypeValueWriteTime 5) = kTypeValueWriteTime ->
          m_Expiry (mkKeyMetaData kTypeValueWriteTime 5) <> 0) as Hm
    by (intros _; discriminate).
  exact (proj1 (Put_clock_independent 7 9 fresh [Byte.x61] [Byte.x31]
                  (mkKeyMetaData kTypeValueWriteTime 5) Hm)).
Defined.

(** ** InsertInto on built and merged batches *)

Lemma InsertInto_Replay (b : WriteBatch) (mem : MemTable)
    (options : option Options) :
  InsertInto b mem options =
  match Replay b with
  | Some (s, evs) => Some (s, mem ++ number_from options (Sequence b) evs)
  | None => None
  end.
Proof.
  unfold InsertInto. cbv zeta. rewrite Iterate_Replay.
  destruct (Replay b) as [[s evs]|]; [|reflexivity].
  rewrite replay_inserter. reflexivity.
Qed.

Lemma Replay_SetSequence (b : WriteBatch) (s : SequenceNumber) :
  has_header b -> Replay (SetSequence b s) = Replay b.
Proof.
  intros Hb. unfold Replay, Iterate. cbv zeta.
  rewrite SetSequence_length by trivial.
  rewrite SetSequence_records, Count_SetSequence. reflexivity.
Qed.

Lemma Replay_do_calls (cs : list Call) :
  Forall call_ok cs -> Replay (do_calls fresh cs) = Some (OK, map call_event cs).
Proof.
  intros Hok. unfold Replay. rewrite Iterate_do_calls by trivial.
  rewrite Recorder_replay. reflexivity.
Qed.

(** X18.  The calls of a batch, once the writer has set its sequence
    number to s, reach the index in order and numbered from s on:
    InsertInto returns OK and adds, after the entries the index held, one
    entry per call, the first with sequence s (as a [uint64_t]), each of
    the others with the sequence after the one before. *)
Theorem InsertInto_built_batch (cs : list Call) (s : SequenceNumber)
    (mem : MemTable) (options : option Options) :
  Forall call_ok cs ->
  InsertInto (SetSequence (do_calls fresh cs) s) mem options =
  Some (OK, mem ++ number_from options (wrap64 s) (map call_event cs)).
Proof.
  intros Hok.
  pose proof (do_calls_header cs fresh fresh_header) as Hh.
  rewrite InsertInto_Replay, Replay_SetSequence, Replay_do_calls by trivial.
  rewrite Sequence_SetSequence. reflexivity.
Qed.

Lemma InsertInto_built_batch_witness :
  InsertInto (SetSequence (do_calls fresh calls_with_expiry) 100) [] None =
  Some (OK, [] ++ number_from None (wrap64 100) (map call_event calls_with_expiry)).
Proof.
  exact (InsertInto_built_batch calls_with_expiry 100 [] None
           calls_with_expiry_ok).
Defined.

(** X19.  InsertInto on a merged batch numbers the records of the source
    after those of the destination, from the sequence number of the
    destination on; the sequence number in the header of the source plays
    no part.  The status is the one the source gives. *)
Theorem InsertInto_Append (dst src : WriteBatch) (evs1 evs2 : list Event)
    (s2 : Status) (mem : MemTable) (options : option Options) :
  has_header dst -> has_header src ->
  Replay dst = Some (OK, evs1) -> Replay src = Some (s2, evs2) ->
  InsertInto (Append dst src) mem options =
    Some (s2, mem ++ number_from options (Sequence dst) (evs1 ++ evs2)) /\
  forall s : SequenceNumber,
    InsertInto (Append dst (SetSequence src s)) mem options =
    InsertInto (Append dst src) mem options.
Proof.
  intros Hd Hs E1 E2.
  assert (forall src', has_header src' -> Replay src' = Some (s2, evs2) ->
            InsertInto (Append dst src') mem options =
            Some (s2, mem ++ number_from options (Sequence dst) (evs1 ++ evs2)))
    as F.
  { intros src' Hs' E2'. rewrite InsertInto_Replay. unfold Replay in *.
    rewrite (Iterate_Append dst src' [] evs1) by trivial.
    rewrite Iterate_Replay. unfold Replay. rewrite E2', Recorder_replay.
    unfold Sequence, DecodeFixed64.
    rewrite Append_sequence_bytes by trivial. reflexivity. }
  split; [apply F; trivial|].
  intros s. rewrite (F src Hs E2). apply F.
  - unfold has_header. rewrite SetSequence_length; trivial.
  - rewrite Replay_SetSequence; trivial.
Qed.

Lemma InsertInto_Append_witness :
  InsertInto (Append (two_batches 0%nat) (two_batches 1%nat)) [] None =
  Some (OK,
        [] ++ number_from None (Sequence (two_batches 0%nat))
                ([EvPut [Byte.x61] [Byte.x31] kTypeValue 0;
                  EvPut [Byte.x62] [Byte.x32] kTypeValue 0;
                  EvDelete [Byte.x61]] ++ [EvDelete [Byte.x62]])).
Proof.
  assert (has_header (two_batches 0%nat)) as Hd
    by (unfold has_header; vm_compute; lia).
  assert (has_header (two_batches 1%nat)) as Hs
    by (unfold has_header; vm_compute; lia).
  apply (InsertInto_Append (two_batches 0%nat) (two_batches 1%nat)
           _ _ OK [] None Hd Hs); vm_compute; reflexivity.
Defined.

Lemma number_from_policy (o1 o2 : option Options) (evs : list Event) :
  forall s : SequenceNumber,
  map (fun e => (entry_sequence e, entry_key e, entry_value e))
    (number_from o1 s evs) =
  map (fun e => (entry_sequence e, entry_key e, entry_value e))
    (number_from o2 s evs).
Proof.
  induction evs as [|e evs IH]; intros s; cbn [number_from map];
    [reflexivity|].
  rewrite IH. f_equal.
  destruct e as [key value type expiry|key]; cbn [entry_of_event];
    [|reflexivity].
  destruct (expiry_policy o1 key value type expiry),
           (expiry_policy o2 key value type expiry).
  reflexivity.
Qed.

(** X20.  The expiry module has no say in what is inserted beyond the type
    and the expiry: with any two options, InsertInto returns the same
    status and adds as many entries, which agree one by one on sequence
    number, key and value. *)
Theorem InsertInto_policy_frame (b : WriteBatch) (mem : MemTable)
    (o1 o2 : option Options) :
  exists (s : Status) (es1 es2 : list MemTableEntry),
    InsertInto b mem o1 = Some (s, mem ++ es1) /\
    InsertInto b mem o2 = Some (s, mem ++ es2) /\
    map (fun e => (entry_sequence e, entry_key e, entry_value e)) es1 =
    map (fun e => (entry_sequence e, entry_key e, entry_value e)) es2.
Proof.
  destruct (Iterate_terminates b ([] : list Event)) as (s & evs & E).
  exists s, (number_from o1 (Sequence b) evs), (number_from o2 (Sequence b) evs).
  rewrite !InsertInto_Replay. unfold Replay. rewrite E.
  repeat apply conj; try reflexivity. apply number_from_policy.
Qed.

(** ** Batches cut between two records *)

(** X21.  A batch built by fewer than 2^32 calls and cut at the end of
    its j-th record, with records left out, is not accepted: Iterate
    calls the handler for the j records that are left and returns the
    corruption error "wrong count". *)
Theorem cut_at_boundary_is_corrupt (cs : list Call) (j : nat) :
  Forall call_ok cs -> (j < length cs)%nat -> Z.of_nat (length cs) < 2 ^ 32 ->
  forall (H : Type) (HH : Handler H) (h : H),
    Iterate
      (mkWriteBatch
         (firstn (kHeader + length (calls_records (firstn j cs)))
            (rep_ (do_calls fresh cs)))) h =
    Some (Corruption "WriteBatch has wrong count",
          fold_left replay_event (map call_event (firstn j cs)) h).
Proof.
  intros Hok Hj Hlen H HH h.
  pose proof (do_calls_header cs fresh fresh_header) as Hh.
  unfold has_header in Hh.
  set (header := firstn kHeader (rep_ (do_calls fresh cs))).
  assert (length header = kHeader) as Hl
    by (unfold header; rewrite length_firstn; lia).
  assert (firstn (kHeader + length (calls_records (firstn j cs)))
            (rep_ (do_calls fresh cs)) =
          header ++ calls_records (firstn j cs)) as Ht.
  { rewrite do_calls_fresh_rep. fold header.
    rewrite <- (firstn_skipn j cs) at 2. rewrite calls_records_app.
    rewrite <- Hl at 1. rewrite firstn_app_2. f_equal.
    apply firstn_exact. reflexivity. }
  rewrite Ht.
  assert (Forall call_ok (firstn j cs)) as Hok'.
  { rewrite <- (firstn_skipn j cs) in Hok. apply Forall_app in Hok.
    apply Hok. }
  rewrite <- (app_nil_r (calls_records (firstn j cs))).
  rewrite Iterate_records, IterateLoop_nil by trivial.
  assert (Count (mkWriteBatch header) = Count (do_calls fresh cs)) as Hc.
  { replace (do_calls fresh cs) with (mkWriteBatch (rep_ (do_calls fresh cs)))
      by (destruct (do_calls fresh cs); reflexivity).
    rewrite do_calls_fresh_rep. fold header. symmetry. apply Count_app. lia. }
  rewrite Hc, Count_do_calls, Count_fresh by apply fresh_header.
  rewrite length_firstn, Nat.min_l by lia. cbn [Z.add].
  destruct (Z.eqb_spec (to_int32 (Z.of_nat j)) (to_int32 (Z.of_nat (length cs))))
    as [E|_]; [|reflexivity].
  apply (f_equal (fun z => z mod 2 ^ 32)) in E.
  rewrite !to_int32_wrap, !Z.mod_small in E by lia. lia.
Qed.

Lemma cut_at_boundary_is_corrupt_witness :
  Iterate
    (mkWriteBatch
       (firstn (kHeader + length (calls_records (firstn 2 calls_with_expiry)))
          (rep_ (do_calls fresh calls_with_expiry)))) ([] : list Event) =
  Some (Corruption "WriteBatch has wrong count",
        fold_left replay_event (map call_event (firstn 2 calls_with_expiry)) []).
Proof.
  assert (2 < length calls_with_expiry)%nat as Hj by (vm_compute; lia).
  assert (Z.of_nat (length calls_with_expiry) < 2 ^ 32) as Hlen
    by (vm_compute; reflexivity).
  exact (cut_at_boundary_is_corrupt calls_with_expiry 2
           calls_with_expiry_ok Hj Hlen (list Event) Recorder []).
Defined.

(** ** The errors Iterate reports *)

Lemma IterateRecord_error {H : Type} `{Handler H} (h : H) (c : byte)
    (input : list byte) (s : Status) :
  IterateRecord h c input = inl s -> s = Corruption (tag_error c).
Proof.
  unfold IterateRecord, tag_error. intros E. inv_record E.
  all: injection E as <-; reflexivity.
Qed.

Lemma tag_error_call (c : Call) : tag_error (call_tag c) = call_error c.
Proof.
  unfold tag_error.
  destruct c as [now key value meta|key]; cbn [call_tag call_error];
    rewrite tag_of_byte_code; [|reflexivity].
  destruct (m_Type (call_meta meta)); reflexivity.
Qed.

Lemma IterateLoop_statuses (fuel : nat) :
  forall (count : Z) (input : list byte) (found : Z) (s : Status)
    (evs : list Event),
  IterateLoop (H := list Event) fuel count [] input found = Some (s, evs) ->
  s = OK \/ s = Corruption "WriteBatch has wrong count" \/
  exists c, In c input /\ s = Corruption (tag_error c).
Proof.
  induction fuel as [|fuel IH]; intros count input found s evs E.
  - destruct input; [|discriminate]. rewrite IterateLoop_nil in E.
    destruct (negb (found =? count)); injection E as <- _; auto.
  - destruct input as [|c input].
    + rewrite IterateLoop_nil in E.
      destruct (negb (found =? count)); injection E as <- _; auto.
    + cbn [IterateLoop] in E. cbv zeta in E.
      destruct (IterateRecord [] c input) as [s'|[new input']] eqn:R.
      * injection E as <- _. apply IterateRecord_error in R.
        right. right. exists c. split; [left; reflexivity | exact R].
      * apply IterateRecord_consumes in R. destruct R as (used & _ & ->).
        rewrite IterateLoop_Recorder_from in E.
        destruct (IterateLoop fuel count [] input' (int_add found 1))
          as [[s' evs']|] eqn:L; [|discriminate].
        injection E as <- _. apply IH in L.
        destruct L as [L|[L|(c' & Hin & L)]]; auto.
        right. right. exists c'. split; [|exact L].
        right. apply in_or_app. right. exact Hin.
Qed.

(** X22.  Whatever the buffer holds, the status Iterate returns is OK or
    one of six corruption errors: too small, wrong count, and the four
    errors of a record, bad Put, bad Delete, bad Expiry and unknown tag;
    an error of a record is the one that belongs to the tag of a byte of
    the buffer after the header. *)
Theorem Iterate_statuses (b : WriteBatch) (s : Status) (evs : list Event) :
  Replay b = Some (s, evs) ->
  In s [OK;
        Corruption "malformed WriteBatch (too small)";
        Corruption "WriteBatch has wrong count";
        Corruption "bad WriteBatch Put";
        Corruption "bad WriteBatch Delete";
        Corruption "bad WriteBatch Expiry";
        Corruption "unknown WriteBatch tag"] /\
  (s = OK \/ s = Corruption "malformed WriteBatch (too small)" \/
   s = Corruption "WriteBatch has wrong count" \/
   exists c, In c (skipn kHeader (rep_ b)) /\ s = Corruption (tag_error c)).
Proof.
  unfold Replay, Iterate. cbv zeta.
  destruct (length (rep_ b) <? kHeader)%nat.
  - intros E. injection E as <- _. split; [cbn|]; auto.
  - intros E. apply IterateLoop_statuses in E.
    destruct E as [->|[->|(c & Hin & ->)]].
    + split; [cbn|]; auto.
    + split; [cbn|]; auto.
    + split; [|right; right; right; eauto].
      unfold tag_error.
      destruct (tag_of_byte c) as [[| | |]|]; cbn; auto 8.
Qed.

Lemma Iterate_statuses_witness :
  In (Corruption "unknown WriteBatch tag")
     [OK;
      Corruption "malformed WriteBatch (too small)";
      Corruption "WriteBatch has wrong count";
      Corruption "bad WriteBatch Put";
      Corruption "bad WriteBatch Delete";
      Corruption "bad WriteBatch Expiry";
      Corruption "unknown WriteBatch tag"].
Proof.
  refine (proj1 (Iterate_statuses scenario_then_garbage
                   (Corruption "unknown WriteBatch tag")
                   [EvPut [Byte.x61] [Byte.x31] kTypeValue 0;
                    EvPut [Byte.x62] [Byte.x32] kTypeValue 0;
                    EvDelete [Byte.x61]] _)).
  vm_compute. reflexivity.
Defined.

(** X23.  A batch built by calls and cut inside the record of one of
    them, after its tag byte, is refused with the error of the kind of
    that record: bad Put for a put of the plain Value type, bad Expiry
    for a put of a type with an expiry, bad Delete for a delete; the
    handler has been called for the calls before that one. *)
Theorem cut_record_error (cs1 cs2 : list Call) (c : Call) (k : nat) :
  Forall call_ok cs1 -> call_ok c -> (k < length (call_payload c))%nat ->
  forall (H : Type) (HH : Handler H) (h : H),
    Iterate
      (mkWriteBatch
         (firstn (kHeader + length (calls_records cs1) + 1 + k)
            (rep_ (do_calls fresh (cs1 ++ c :: cs2))))) h =
    Some (Corruption (call_error c),
          fold_left replay_event (map call_event cs1) h).
Proof.
  intros Hok1 Hc Hk H HH h.
  set (b := do_calls fresh (cs1 ++ c :: cs2)).
  pose proof (do_calls_header (cs1 ++ c :: cs2) fresh fresh_header) as Hh.
  fold b in Hh. unfold has_header in Hh.
  assert (length (firstn kHeader (rep_ b)) = kHeader) as Hl
    by (rewrite length_firstn; lia).
  assert (firstn (kHeader + length (calls_records cs1) + 1 + k) (rep_ b) =
          firstn kHeader (rep_ b)
          ++ calls_records cs1 ++ call_tag c :: firstn k (call_payload c))
    as Ht.
  { unfold b at 1. rewrite do_calls_fresh_rep. fold b.
    rewrite calls_records_app.
    replace (kHeader + length (calls_records cs1) + 1 + k)%nat
      with (length (firstn kHeader (rep_ b))
            + (length (calls_records cs1) + S k))%nat by lia.
    rewrite firstn_app_2, firstn_app_2. f_equal. f_equal.
    unfold calls_records at 1. cbn [map concat].
    unfold call_record. cbn [app firstn]. f_equal.
    rewrite firstn_app.
    replace (k - length (call_payload c))%nat with O by lia.
    cbn [firstn]. apply app_nil_r. }
  rewrite Ht, Iterate_records by trivial.
  destruct (IterateRecord_truncated
              (fold_left replay_event (map call_event cs1) h) c k Hc Hk)
    as (msg & R).
  pose proof (IterateRecord_error _ _ _ _ R) as E.
  rewrite tag_error_call in E. rewrite E in R.
  apply IterateLoop_cons_inl; [exact R|]. cbn [length]. lia.
Qed.

Lemma cut_record_error_witness :
  Iterate
    (mkWriteBatch
       (firstn (kHeader + length (calls_records []) + 1 + 2)
          (rep_ (do_calls fresh ([] ++ calls_with_expiry))))) ([] : list Event) =
  Some (Corruption "bad WriteBatch Expiry", []).
Proof.
  assert (call_ok (CallPut 7 [Byte.x61] [Byte.x31]
                     (Some (mkKeyMetaData kTypeValueWriteTime 0)))) as Hc
    by (cbn [call_ok call_meta m_Type m_Expiry]; unfold fits32, in_u64;
        repeat apply conj; try discriminate; cbn; lia).
  assert (Nat.lt 2%nat
            (length (call_payload
                       (CallPut 7 [Byte.x61] [Byte.x31]
                          (Some (mkKeyMetaData kTypeValueWriteTime 0))))))
    as Hk by (vm_compute; lia).
  exact (cut_record_error [] _ _ 2 (Forall_nil _) Hc Hk (list Event) Recorder []).
Defined.
